(** * beak: undo log, frame loop, viewport clamp and option parsing

    A shallow embedding of [beak.c].  The program is a single C file built
    on raylib: it keeps the painted canvas in a render texture, stores CPU
    copies of it in a fixed-size ring ([UndoLog]) and runs one frame loop
    that polls the input, navigates or extends the ring, pans the camera and
    paints.

    - [size_t] / [unsigned long] values are [Z] with the wrap-around modulo
      [2^64] written out; [int] values are [Z] and [int] arithmetic is
      exact, which agrees with the code wherever the C result fits an
      [int] (see [clamp_target]).
    - raylib (textures, images, drawing, colours) and C [float] arithmetic
      are external: they are an interface ([Raylib]) whose operations the
      code calls; nothing is assumed about them except where a theorem says
      so.
    - Undefined behaviour of the C code (a failed [assert], [% 0], an index
      outside the allocated array, use of an image that is not loaded) is a
      [Crash] of the [Result] monad. *)

From Stdlib Require Import ZArith List Bool String Ascii Lia.
From stdpp Require Import base tactics list.

Local Open Scope Z_scope.

(** ** Faults and the result monad *)

Inductive Fault : Type :=
| AssertionFailed      (* [assert] evaluated to false *)
| DivisionByZero       (* [x % 0] *)
| OutOfBounds          (* [images[i]] with [i] outside the allocation *)
| ImageNotLoaded.      (* an [Image] read or unloaded while it holds no data *)

Inductive Result (A : Type) : Type :=
| Ok (a : A)
| Crash (f : Fault).

Arguments Ok {A} a.
Arguments Crash {A} f.

Definition bind {A B : Type} (c : Result A) (k : A -> Result B) : Result B :=
  match c with
  | Ok a => k a
  | Crash f => Crash f
  end.

Notation "x <- c ;; k" := (bind c (fun x => k))
  (at level 100, c at next level, right associativity).

Definition assert (b : bool) : Result unit :=
  if b then Ok tt else Crash AssertionFailed.

(** ** Machine integers *)

Definition ULONG_MAX : Z := 2 ^ 64 - 1.

(** Reduction of an arithmetic result to [size_t] (64 bits, unsigned). *)
Definition size_t (x : Z) : Z := x mod 2 ^ 64.

(** [a % b] on [size_t]. *)
Definition umod (a b : Z) : Result Z :=
  if b =? 0 then Crash DivisionByZero else Ok (a mod b).

(** [(int)x] for an [unsigned long] [x]: the low 32 bits, two's complement. *)
Definition int_of_ulong (x : Z) : Z :=
  let r := x mod 2 ^ 32 in
  if r <? 2 ^ 31 then r else r - 2 ^ 32.

(** The range of [int] (32 bits). *)
Definition INT_MIN : Z := - 2 ^ 31.
Definition INT_MAX : Z := 2 ^ 31 - 1.

(** ** The macros of beak.c *)

Definition NUM_COLORS : Z := 5.

Definition MAX (a b : Z) : Z := if a >? b then a else b.

Definition MIN (a b : Z) : Z := if a <? b then a else b.

Definition CLAMP (lower x upper : Z) : Z := MIN upper (MAX lower x).

(** ** raylib and float arithmetic, as the code uses them *)

Class Raylib : Type := {
  float : Type;
  Color : Type;
  Texture : Type;        (* the pixels of a texture or render texture *)
  Image : Type;          (* a CPU copy of pixels *)
  (* C float arithmetic *)
  float_of_Z : Z -> float;
  int_of_float : float -> Z;
  fadd : float -> float -> float;
  fsub : float -> float -> float;
  fmul : float -> float -> float;
  fdiv : float -> float -> float;
  fmodf : float -> float -> float;
  fleb : float -> float -> bool;
  feqb : float -> float -> bool;
  float_0_75 : float;    (* the literal [0.75f] *)
  (* raylib *)
  GetColor : Z -> Color;
  ColorFromHSV : float -> float -> float -> Color;
  LoadRenderTexture : Z -> Z -> Texture;
  LoadImageFromTexture : Texture -> Image;
  LoadTextureFromImage : Image -> Texture;
  ClearBackground : Color -> Texture -> Texture;
  (* [DrawTextureRec(t, {0, 0, t.width, -t.height}, {0, 0}, WHITE)] inside
     [BeginTextureMode(framebuffer)] *)
  DrawTextureRec_flipped : Texture -> Texture -> Texture;
  DrawCircleV : float * float -> float -> Color -> Texture -> Texture;
  DrawLineEx : float * float -> float * float -> float -> Color -> Texture -> Texture
}.

(** The contract the undo log relies on for its GPU to CPU to GPU copies:
    reading a render texture back and drawing that image flipped into the
    render texture restores the pixels that were read. *)
Class RaylibRoundTrip (R : Raylib) : Prop :=
  round_trip : forall fb fb' : Texture,
    DrawTextureRec_flipped (LoadTextureFromImage (LoadImageFromTexture fb)) fb' = fb.

(** [Vector2] of raymath. *)
Definition Vector2 `{Raylib} : Type := (float * float)%type.

Definition Vector2Add `{Raylib} (a b : Vector2) : Vector2 :=
  (fadd (fst a) (fst b), fadd (snd a) (snd b)).

(** raylib key codes. *)
Definition KEY_ONE : Z := 49.
Definition KEY_FIVE : Z := 53.

(** ** The configuration variables of [main] *)

Record Options : Type := {
  canvas_width : Z;
  canvas_height : Z;
  window_width : Z;
  window_height : Z;
  undo_log_size : Z;
  background_hexcolor : Z;
  save_path : string
}.

Definition default_options : Options :=
  {| canvas_width := 2560; canvas_height := 1440;
     window_width := 800; window_height := 600;
     undo_log_size := 16; background_hexcolor := 0x111600FF;
     save_path := "beak.png" |}.

Section Beak.

Context `{RL : Raylib}.

(** ** UndoLog *)

(** [images] is the malloc'ed array of [size] images; a slot is [Some img]
    while it holds a loaded image and [None] before it is first written and
    after [UnloadImage]. *)
Record UndoLog : Type := {
  images : list (option Image);
  size : Z;
  used_size : Z;
  top : Z;
  selected : Z
}.

(** The state the undo functions work on: the log, the canvas render
    texture, and the images of the log given to [UnloadImage] so far
    (latest first). *)
Record State : Type := {
  log : UndoLog;
  framebuffer : Texture;
  unloaded : list Image
}.

Definition set_images (l : UndoLog) (imgs : list (option Image)) : UndoLog :=
  {| images := imgs; size := size l; used_size := used_size l;
     top := top l; selected := selected l |}.

(** The array cell [log->images[i]]; [None] when [i] is outside the array. *)
Definition slot (l : UndoLog) (i : Z) : option (option Image) :=
  if i <? 0 then None else images l !! Z.to_nat i.

(** [UnloadImage(log->images[i])] *)
Definition unload_slot (i : Z) (s : State) : Result State :=
  match slot (log s) i with
  | None => Crash OutOfBounds
  | Some None => Crash ImageNotLoaded
  | Some (Some img) =>
      Ok {| log := set_images (log s) (<[Z.to_nat i := None]> (images (log s)));
            framebuffer := framebuffer s;
            unloaded := img :: unloaded s |}
  end.

(** [log->images[i] = img] *)
Definition store_slot (i : Z) (img : Image) (l : UndoLog) : Result UndoLog :=
  match slot l i with
  | None => Crash OutOfBounds
  | Some _ => Ok (set_images l (<[Z.to_nat i := Some img]> (images l)))
  end.

(** [log->images[i]], read to be used as an image *)
Definition load_slot (i : Z) (l : UndoLog) : Result Image :=
  match slot l i with
  | None => Crash OutOfBounds
  | Some None => Crash ImageNotLoaded
  | Some (Some img) => Ok img
  end.

(** [UndoLog log = { .images = malloc(n * sizeof(Image)), .size = n }]: [n]
    slots that hold no image yet, the other fields zero.  The allocation is
    taken to succeed. *)
Definition new_log (n : Z) : UndoLog :=
  {| images := replicate (Z.to_nat n) None;
     size := n; used_size := 0; top := 0; selected := 0 |}.

(** Makes a GPU->CPU copy of framebuffer and pushes it onto the undo log. *)
Definition undo_log_push (s : State) : Result State :=
  _ <- assert (used_size (log s) <=? size (log s)) ;;
  s1 <- (if used_size (log s) =? size (log s)
         then unload_slot (top (log s)) s
         else Ok s) ;;
  l2 <- store_slot (top (log s1)) (LoadImageFromTexture (framebuffer s1)) (log s1) ;;
  new_top <- umod (size_t (top l2 + 1)) (size l2) ;;
  Ok {| log := {| images := images l2;
                  size := size l2;
                  used_size := if used_size l2 <? size l2
                               then size_t (used_size l2 + 1)
                               else used_size l2;
                  top := new_top;
                  selected := top l2 |};
        framebuffer := framebuffer s1;
        unloaded := unloaded s1 |}.

(** Makes a CPU->GPU copy of log entry to framebuffer. *)
Definition undo_log_copy (s : State) (offset : Z) : Result State :=
  new_selected <- umod (size_t (selected (log s) + size (log s) + size_t offset))
                       (size (log s)) ;;
  let l1 := {| images := images (log s); size := size (log s);
               used_size := used_size (log s); top := top (log s);
               selected := new_selected |} in
  img <- load_slot new_selected l1 ;;
  let texture := LoadTextureFromImage img in
  Ok {| log := l1;
        framebuffer := DrawTextureRec_flipped texture (framebuffer s);
        unloaded := unloaded s |}.

(** Mapping ints to linearly spaced HSV colors. *)
Definition get_brush_color (i : Z) : Color :=
  ColorFromHSV
    (fmodf (fmul (float_of_Z 360) (fdiv (float_of_Z i) (float_of_Z NUM_COLORS)))
           (float_of_Z 360))
    float_0_75 float_0_75.

(** Clear framebuffer to color and then push new state to undo log. *)
Definition clear_framebuffer (s : State) (color : Color) : Result State :=
  undo_log_push {| log := log s;
                   framebuffer := ClearBackground color (framebuffer s);
                   unloaded := unloaded s |}.

(** ** The frame loop of [main] *)

(** What raylib reports during one iteration of the loop. *)
Record Input : Type := {
  GetScreenWidth : Z;
  GetScreenHeight : Z;
  GetKeyPressed : Z;
  GetMouseWheelMove : float;
  IsKeyPressed_C : bool;
  IsKeyPressed_S : bool;
  IsKeyPressed_W : bool;
  IsKeyPressed_Q : bool;
  IsMouseButtonPressed_LEFT : bool;
  IsMouseButtonPressed_EXTRA : bool;
  IsMouseButtonPressed_SIDE : bool;
  IsMouseButtonReleased_LEFT : bool;
  IsMouseButtonDown_LEFT : bool;
  IsMouseButtonDown_MIDDLE : bool;
  IsMouseButtonDown_RIGHT : bool;
  IsWindowResized : bool;
  GetMousePosition : Vector2
}.

(** The local variables of [main] that live across iterations; [exported]
    lists the images written by [ExportImage] and [unloaded_copies] the
    copies made for Save that were given to [UnloadImage] after the export
    (both latest first). *)
Record Loop : Type := {
  st : State;
  target_x : Z;
  target_y : Z;
  brush_radius : float;
  prev_mouse_pos : Vector2;
  mouse_pos : Vector2;
  brush_color : Color;
  exported : list (Image * string);
  unloaded_copies : list Image
}.

(** [(log.top + log.size - log.selected) % log.size] *)
Definition log_top_dist (l : UndoLog) : Result Z :=
  umod (size_t (top l + size l - selected l)) (size l).

(** The loop
    [for (i = (selected + 1) % size; i != top; i = (i + 1) % size) UnloadImage(images[i]);]
    entered at index [i].  Every iteration unloads a loaded slot, so after
    as many iterations as the array has slots the next [UnloadImage] can
    only meet a slot that is not loaded: [fuel] beyond that is never used
    (lemma [release_range_fuel]). *)
Fixpoint release_range (fuel : nat) (i : Z) (s : State) : Result State :=
  if i =? top (log s) then Ok s
  else match fuel with
       | O => Crash ImageNotLoaded
       | S fuel' =>
           s1 <- unload_slot i s ;;
           i' <- umod (size_t (i + 1)) (size (log s1)) ;;
           release_range fuel' i' s1
       end.

(** Clear the log from selected -> top (the body of
    [if (IsMouseButtonPressed(MOUSE_BUTTON_LEFT))]). *)
Definition clear_selected_to_top (s : State) (dist : Z) : Result State :=
  first <- umod (size_t (selected (log s) + 1)) (size (log s)) ;;
  s1 <- release_range (S (length (images (log s)))) first s ;;
  new_top <- umod (size_t (selected (log s1) + 1)) (size (log s1)) ;;
  Ok {| log := {| images := images (log s1);
                  size := size (log s1);
                  used_size := size_t (used_size (log s1) - size_t (dist - 1));
                  top := new_top;
                  selected := selected (log s1) |};
        framebuffer := framebuffer s1;
        unloaded := unloaded s1 |}.

(** The undo-log part of one iteration, after the Clear key was handled:
    distance, clearing on a new stroke, redo, undo, push on release. *)
Definition history_step (s : State) (i : Input) : Result State :=
  dist <- log_top_dist (log s) ;;
  s2 <- (if 1 <? dist then
           s1 <- (if IsMouseButtonPressed_LEFT i
                  then clear_selected_to_top s dist
                  else Ok s) ;;
           if IsKeyPressed_W i || IsMouseButtonPressed_EXTRA i
           then undo_log_copy s1 1
           else Ok s1
         else Ok s) ;;
  s3 <- (if (dist <? used_size (log s2))
            && (IsKeyPressed_Q i || IsMouseButtonPressed_SIDE i)
         then undo_log_copy s2 (-1)
         else Ok s2) ;;
  if IsMouseButtonReleased_LEFT i then undo_log_push s3 else Ok s3.

(** [CLAMP(w/2, target, MAX(0, (int)canvas_dim - w/2))].  In C the
    subtraction is done in [int]; here it is exact, which is what the code
    computes as long as the difference lies between [INT_MIN] and
    [INT_MAX] (beyond that the C expression overflows, which is
    undefined). *)
Definition clamp_target (canvas_dim w target : Z) : Z :=
  CLAMP (w ÷ 2) target (MAX 0 (int_of_ulong canvas_dim - w ÷ 2)).

(** [target -= mouse_pos - prev_mouse_pos] on one axis: float arithmetic,
    converted back to [int]. *)
Definition pan_axis (target : Z) (cur prev : float) : Z :=
  int_of_float (fsub (float_of_Z target) (fsub cur prev)).

(** Camera panning and the resize clamp of one iteration. *)
Definition camera_target (o : Options) (l : Loop) (i : Input) : Z * Z :=
  let w := GetScreenWidth i in
  let h := GetScreenHeight i in
  let prev := mouse_pos l in
  let cur := GetMousePosition i in
  let t1 :=
    if IsMouseButtonDown_MIDDLE i then
      (clamp_target (canvas_width o) w (pan_axis (target_x l) (fst cur) (fst prev)),
       clamp_target (canvas_height o) h (pan_axis (target_y l) (snd cur) (snd prev)))
    else (target_x l, target_y l) in
  if IsWindowResized i then
    (clamp_target (canvas_width o) w (fst t1),
     clamp_target (canvas_height o) h (snd t1))
  else t1.

(** The capsule drawn from the previous to the current mouse position. *)
Definition draw_stroke (o : Options) (w h tx ty : Z) (prev cur : Vector2)
    (radius : float) (color : Color) (fb : Texture) : Texture :=
  let offset : Vector2 := (float_of_Z (tx - w ÷ 2), float_of_Z (ty - h ÷ 2)) in
  let start := Vector2Add offset prev in
  let end_ := Vector2Add offset cur in
  let start : Vector2 := (fst start, fsub (float_of_Z (canvas_height o)) (snd start)) in
  let end_ : Vector2 := (fst end_, fsub (float_of_Z (canvas_height o)) (snd end_)) in
  DrawCircleV end_ radius color
    (DrawLineEx start end_ (fmul (float_of_Z 2) radius) color
       (DrawCircleV start radius color fb)).

(** One iteration of [while (!WindowShouldClose())].  Save reads the canvas
    back into [image], exports it and unloads it.  The drawing to the
    screen between [BeginDrawing] and [EndDrawing] changes none of the
    program's variables and is left out. *)
Definition frame (o : Options) (l : Loop) (i : Input) : Result Loop :=
  let background := GetColor (background_hexcolor o) in
  let w := GetScreenWidth i in
  let h := GetScreenHeight i in
  let key := GetKeyPressed i in
  let brush_color1 :=
    if (KEY_ONE <=? key) && (key <=? KEY_FIVE)
    then get_brush_color (key - KEY_ONE)
    else brush_color l in
  let scroll := GetMouseWheelMove i in
  let brush_radius1 :=
    if negb (feqb scroll (float_of_Z 0)) then
      let r := fadd (brush_radius l) (fmul (float_of_Z 5) scroll) in
      if fleb r (float_of_Z 0) then float_of_Z 1 else r
    else brush_radius l in
  s1 <- (if IsKeyPressed_C i then clear_framebuffer (st l) background
         else Ok (st l)) ;;
  let image := LoadImageFromTexture (framebuffer s1) in
  let exported1 :=
    if IsKeyPressed_S i then (image, save_path o) :: exported l
    else exported l in
  let unloaded_copies1 :=
    if IsKeyPressed_S i then image :: unloaded_copies l
    else unloaded_copies l in
  s2 <- history_step s1 i ;;
  let prev := mouse_pos l in
  let cur := GetMousePosition i in
  let target := camera_target o l i in
  let fb :=
    if IsMouseButtonDown_LEFT i || IsMouseButtonDown_RIGHT i then
      let color := if IsMouseButtonDown_LEFT i then brush_color1 else background in
      draw_stroke o w h (fst target) (snd target) prev cur brush_radius1 color
        (framebuffer s2)
    else framebuffer s2 in
  Ok {| st := {| log := log s2; framebuffer := fb; unloaded := unloaded s2 |};
        target_x := fst target;
        target_y := snd target;
        brush_radius := brush_radius1;
        prev_mouse_pos := prev;
        mouse_pos := cur;
        brush_color := brush_color1;
        exported := exported1;
        unloaded_copies := unloaded_copies1 |}.

(** [main] from [InitWindow] to the first iteration: the log is allocated
    with [undo_log_size] uninitialised slots and the cleared canvas is
    pushed. *)
Definition startup (o : Options) : Result Loop :=
  let l0 := new_log (undo_log_size o) in
  let framebuffer0 := LoadRenderTexture (canvas_width o) (canvas_height o) in
  let background := GetColor (background_hexcolor o) in
  s <- clear_framebuffer {| log := l0; framebuffer := framebuffer0; unloaded := [] |}
                         background ;;
  Ok {| st := s;
        target_x := 400;
        target_y := 300;
        brush_radius := float_of_Z 10;
        prev_mouse_pos := (float_of_Z 0, float_of_Z 0);
        mouse_pos := (float_of_Z 0, float_of_Z 0);
        brush_color := get_brush_color 0;
        exported := [];
        unloaded_copies := [] |}.

(** *** Inputs of one iteration *)

(** The events an iteration reacts to, one at a time. *)
Inductive Event : Type :=
| PressC | PressQ | PressW | PressLeft | ReleaseLeft | HoldRight | HoldMiddle
| Resize | PressKey (key : Z).

Definition event (e : Event) (w h : Z) (mouse : Vector2) : Input :=
  let on (e' : Event) : bool :=
    match e, e' with
    | PressC, PressC | PressQ, PressQ | PressW, PressW
    | PressLeft, PressLeft | ReleaseLeft, ReleaseLeft
    | HoldRight, HoldRight | HoldMiddle, HoldMiddle | Resize, Resize => true
    | _, _ => false
    end in
  {| GetScreenWidth := w; GetScreenHeight := h;
     GetKeyPressed := match e with PressKey key => key | _ => 0 end;
     GetMouseWheelMove := float_of_Z 0;
     IsKeyPressed_C := on PressC; IsKeyPressed_S := false;
     IsKeyPressed_W := on PressW; IsKeyPressed_Q := on PressQ;
     IsMouseButtonPressed_LEFT := on PressLeft; IsMouseButtonPressed_EXTRA := false;
     IsMouseButtonPressed_SIDE := false; IsMouseButtonReleased_LEFT := on ReleaseLeft;
     IsMouseButtonDown_LEFT := on PressLeft;
     IsMouseButtonDown_MIDDLE := on HoldMiddle;
     IsMouseButtonDown_RIGHT := on HoldRight; IsWindowResized := on Resize;
     GetMousePosition := mouse |}.

(** Running the loop over a list of inputs. *)
Fixpoint frames (o : Options) (l : Loop) (inputs : list Input) : Result Loop :=
  match inputs with
  | [] => Ok l
  | i :: rest => l' <- frame o l i ;; frames o l' rest
  end.

(** The loop states the program can be in: after [startup], and after any
    iteration that did not crash. *)
Inductive reachable (o : Options) : Loop -> Prop :=
| reachable_startup l :
    startup o = Ok l -> reachable o l
| reachable_frame l i l' :
    reachable o l -> frame o l i = Ok l' -> reachable o l'.

End Beak.


(** ** Command line options *)

(** [strtoul] of the C library is not part of the repository; this is its
    behaviour as ISO C describes it for [endptr == NULL]: leading white
    space, an optional sign, for base 16 an optional [0x] prefix, then the
    longest run of digits of the base.  No digit at all yields 0; a value
    above [ULONG_MAX] yields [ULONG_MAX]; a minus sign negates the value as
    an [unsigned long]. *)
Definition isspace (c : ascii) : bool :=
  let n := Z.of_N (N_of_ascii c) in
  (n =? 32) || ((9 <=? n) && (n <=? 13)).

Definition digit_value (c : ascii) : option Z :=
  let n := Z.of_N (N_of_ascii c) in
  if (48 <=? n) && (n <=? 57) then Some (n - 48)
  else if (97 <=? n) && (n <=? 122) then Some (n - 87)
  else if (65 <=? n) && (n <=? 90) then Some (n - 55)
  else None.

Fixpoint skip_spaces (s : string) : string :=
  match s with
  | String c r => if isspace c then skip_spaces r else s
  | EmptyString => s
  end.

(** The digits of [s] in [base], accumulated on [acc]; the flag tells whether
    any digit was read. *)
Fixpoint read_digits (base : Z) (s : string) (acc : Z) (any : bool) : Z * bool :=
  match s with
  | String c r =>
      match digit_value c with
      | Some d => if d <? base then read_digits base r (acc * base + d) true
                  else (acc, any)
      | None => (acc, any)
      end
  | EmptyString => (acc, any)
  end.

Definition strtoul (nptr : string) (base : Z) : Z :=
  let s := skip_spaces nptr in
  let '(negative, s) :=
    match s with
    | String "-" r => (true, r)
    | String "+" r => (false, r)
    | _ => (false, s)
    end in
  let s :=
    if base =? 16 then
      match s with
      | String "0" (String "x" r) => r
      | String "0" (String "X" r) => r
      | _ => s
      end
    else s in
  let '(v, any) := read_digits base s 0 false in
  if negb any then 0
  else if v >? ULONG_MAX then ULONG_MAX
  else if negative then size_t (- v)
  else v.

Inductive CmdLineOptionType : Type :=
| CMDLINE_OPTION_STR
| CMDLINE_OPTION_ULONG
| CMDLINE_OPTION_HEX.

(** The variable an option's pointer refers to. *)
Inductive Variable_ : Type :=
| ref_canvas_width | ref_canvas_height | ref_window_width | ref_window_height
| ref_undo_log_size | ref_background_hexcolor | ref_save_path.

Record CmdLineOption : Type := {
  name : string;
  format : string;
  type : CmdLineOptionType;
  pointer : Variable_
}.

Definition options : list CmdLineOption :=
  [ {| name := "--canvas-width";  format := "ulong";
       type := CMDLINE_OPTION_ULONG; pointer := ref_canvas_width |};
    {| name := "--canvas-height"; format := "ulong";
       type := CMDLINE_OPTION_ULONG; pointer := ref_canvas_height |};
    {| name := "--window-width";  format := "ulong";
       type := CMDLINE_OPTION_ULONG; pointer := ref_window_width |};
    {| name := "--window-height"; format := "ulong";
       type := CMDLINE_OPTION_ULONG; pointer := ref_window_height |};
    {| name := "--undo-log-size"; format := "ulong";
       type := CMDLINE_OPTION_ULONG; pointer := ref_undo_log_size |};
    {| name := "--background";    format := "0xRRGGBBAA";
       type := CMDLINE_OPTION_HEX;   pointer := ref_background_hexcolor |};
    {| name := "--save-path";     format := "/save/path/file.png";
       type := CMDLINE_OPTION_STR;   pointer := ref_save_path |} ].

(** [*options[i].ulong = v] *)
Definition assign_ulong (p : Variable_) (v : Z) (o : Options) : Options :=
  match p with
  | ref_canvas_width =>
      {| canvas_width := v; canvas_height := canvas_height o;
         window_width := window_width o; window_height := window_height o;
         undo_log_size := undo_log_size o;
         background_hexcolor := background_hexcolor o; save_path := save_path o |}
  | ref_canvas_height =>
      {| canvas_width := canvas_width o; canvas_height := v;
         window_width := window_width o; window_height := window_height o;
         undo_log_size := undo_log_size o;
         background_hexcolor := background_hexcolor o; save_path := save_path o |}
  | ref_window_width =>
      {| canvas_width := canvas_width o; canvas_height := canvas_height o;
         window_width := v; window_height := window_height o;
         undo_log_size := undo_log_size o;
         background_hexcolor := background_hexcolor o; save_path := save_path o |}
  | ref_window_height =>
      {| canvas_width := canvas_width o; canvas_height := canvas_height o;
         window_width := window_width o; window_height := v;
         undo_log_size := undo_log_size o;
         background_hexcolor := background_hexcolor o; save_path := save_path o |}
  | ref_undo_log_size =>
      {| canvas_width := canvas_width o; canvas_height := canvas_height o;
         window_width := window_width o; window_height := window_height o;
         undo_log_size := v;
         background_hexcolor := background_hexcolor o; save_path := save_path o |}
  | ref_background_hexcolor =>
      {| canvas_width := canvas_width o; canvas_height := canvas_height o;
         window_width := window_width o; window_height := window_height o;
         undo_log_size := undo_log_size o;
         background_hexcolor := v; save_path := save_path o |}
  | ref_save_path => o
  end.

(** [*options[i].str = value] *)
Definition assign_str (p : Variable_) (value : string) (o : Options) : Options :=
  match p with
  | ref_save_path =>
      {| canvas_width := canvas_width o; canvas_height := canvas_height o;
         window_width := window_width o; window_height := window_height o;
         undo_log_size := undo_log_size o;
         background_hexcolor := background_hexcolor o; save_path := value |}
  | _ => o
  end.

(** How the part of [main] before [InitWindow] ends. *)
Inductive Parsed : Type :=
| Help                       (* the help text was printed; [return 0] *)
| Error (message : string)   (* a line on stderr; [return -1] *)
| Run (o : Options).         (* the loop over [argv] finished *)

Definition exit_status (p : Parsed) : option Z :=
  match p with
  | Help => Some 0
  | Error _ => Some (-1)
  | Run _ => None
  end.

(** The inner loop over [options] for one [option value] pair. *)
Fixpoint set_option (table : list CmdLineOption) (option value : string)
    (o : Options) : Parsed :=
  match table with
  | [] => Run o
  | entry :: rest =>
      if negb (String.eqb option (name entry)) then set_option rest option value o
      else
        match type entry with
        | CMDLINE_OPTION_STR =>
            set_option rest option value (assign_str (pointer entry) value o)
        | CMDLINE_OPTION_ULONG =>
            let v := strtoul value 10 in
            if v =? ULONG_MAX
            then Error ("[error]: Invalid " ++ option ++ " option " ++ value)
            else set_option rest option value (assign_ulong (pointer entry) v o)
        | CMDLINE_OPTION_HEX =>
            let v := strtoul value 16 in
            if v =? ULONG_MAX
            then Error ("[error]: Invalid " ++ option ++ " option " ++ value)
            else set_option rest option value (assign_ulong (pointer entry) v o)
        end
  end.

(** The loop over [argv[1..]]. *)
Fixpoint parse_args (args : list string) (o : Options) : Parsed :=
  match args with
  | [] => Run o
  | option :: rest =>
      if String.prefix "--help" option then Help
      else
        match rest with
        | [] => Error ("[error]: Missing value for option " ++ option)
        | value :: rest' =>
            match set_option options option value o with
            | Run o' => parse_args rest' o'
            | stop => stop
            end
        end
  end.

(** [main]: the options, then the window and the frame loop over the inputs
    raylib delivers until the window is closed. *)
Inductive Exit `{Raylib} : Type :=
| Returned (status : Z) (final : option Loop)
| Aborted (f : Fault).

Definition main `{Raylib} (argv : list string) (inputs : list Input) : Exit :=
  match parse_args (tail argv) default_options with
  | Help => Returned 0 None
  | Error _ => Returned (-1) None
  | Run o =>
      match (l <- startup o ;; frames o l inputs) with
      | Ok l => Returned 0 (Some l)
      | Crash f => Aborted f
      end
  end.

(** * Notions used to state the properties *)

Section Notions.

Context `{RL : Raylib}.

(** The distance from [selected] to [top], as the loop computes it. *)
Definition dist (l : UndoLog) : Z := (top l + size l - selected l) mod size l.

(** The index of the slot written [k + 1] pushes ago. *)
Definition back (l : UndoLog) (k : Z) : Z := (top l + size l - 1 - k) mod size l.

(** Slot [i] holds a loaded image. *)
Definition loaded (l : UndoLog) (i : Z) : Prop :=
  exists img, slot l i = Some (Some img).

(** Cursors inside the array, which has [size] slots, for a size that
    [top + size] cannot wrap around. *)
Record cursors_ok (l : UndoLog) : Prop := {
  ok_size : 0 < size l < 2 ^ 63;
  ok_length : Z.of_nat (length (images l)) = size l;
  ok_top : 0 <= top l < size l;
  ok_selected : 0 <= selected l < size l;
  ok_used : 0 <= used_size l <= size l
}.

(** The [used_size] slots behind [top] hold loaded images. *)
Record slots_ok (l : UndoLog) : Prop := {
  ok_cursors : cursors_ok l;
  ok_loaded : forall k, 0 <= k < used_size l -> loaded l (back l k)
}.

(** The invariant of the frame loop. *)
Record log_ok (l : UndoLog) : Prop := {
  ok_slots : slots_ok l;
  ok_nonempty : 1 <= used_size l;
  ok_dist : dist l <= used_size l
}.

(** The state with [fb] on the canvas. *)
Definition with_framebuffer (fb : Texture) (s : State) : State :=
  {| log := log s; framebuffer := fb; unloaded := unloaded s |}.

(** The image a slot holds, as a list of at most one element. *)
Definition content (l : UndoLog) (i : Z) : list Image :=
  match slot l i with
  | Some (Some img) => [img]
  | _ => []
  end.

(** The state [undo_log_push] returns. *)
Definition pushed (s : State) : State :=
  let l := log s in
  {| log := {| images := <[Z.to_nat (top l) := Some (LoadImageFromTexture (framebuffer s))]>
                           (images l);
               size := size l;
               used_size := Z.min (used_size l + 1) (size l);
               top := (top l + 1) mod size l;
               selected := top l |};
     framebuffer := framebuffer s;
     unloaded := (if used_size l =? size l then content l (top l) else [])
                 ++ unloaded s |}.

(** The state [undo_log_copy] returns when it moves [selected] to [i]. *)
Definition copied (i : Z) (s : State) : State :=
  let l := log s in
  {| log := {| images := images l; size := size l; used_size := used_size l;
               top := top l; selected := i |};
     framebuffer :=
       match content l i with
       | img :: _ => DrawTextureRec_flipped (LoadTextureFromImage img) (framebuffer s)
       | [] => framebuffer s
       end;
     unloaded := unloaded s |}.

(** Slot [i] unloaded. *)
Definition unloaded_at (i : Z) (s : State) : State :=
  {| log := set_images (log s) (<[Z.to_nat i := None]> (images (log s)));
     framebuffer := framebuffer s;
     unloaded := content (log s) i ++ unloaded s |}.

(** [n] consecutive slots unloaded, from [i] on, around the ring. *)
Fixpoint unloaded_from (n : nat) (i : Z) (s : State) : State :=
  match n with
  | O => s
  | S n' => unloaded_from n' ((i + 1) mod size (log s)) (unloaded_at i s)
  end.

(** The state [clear_selected_to_top] returns at distance [d]. *)
Definition cleared_to_top (d : Z) (s : State) : State :=
  let s1 := unloaded_from (Z.to_nat (d - 1)) ((selected (log s) + 1) mod size (log s)) s in
  {| log := {| images := images (log s1); size := size (log s);
               used_size := used_size (log s) - (d - 1);
               top := (selected (log s) + 1) mod size (log s);
               selected := selected (log s) |};
     framebuffer := framebuffer s;
     unloaded := unloaded s1 |}.

(** The number of slots that hold a loaded image. *)
Fixpoint loaded_count (imgs : list (option Image)) : nat :=
  match imgs with
  | [] => 0
  | Some _ :: rest => S (loaded_count rest)
  | None :: rest => loaded_count rest
  end.

(** Pushing a sequence of canvases, one [undo_log_push] each. *)
Fixpoint push_canvases (fbs : list Texture) (s : State) : Result State :=
  match fbs with
  | [] => Ok s
  | fb :: rest =>
      s' <- undo_log_push (with_framebuffer fb s) ;;
      push_canvases rest s'
  end.

(** The used slots in the order they were written, oldest first. *)
Definition stored (l : UndoLog) : list (option (option Image)) :=
  (fun k => slot l (back l (used_size l - 1 - k))) <$> seqZ 0 (used_size l).

(** A slot that holds the read-back of a canvas. *)
Definition snapshot (fb : Texture) : option (option Image) :=
  Some (Some (LoadImageFromTexture fb)).

(** The log of [n] slots after the canvases [fbs] were pushed into it, in
    terms of the pushes: the [j]-th push is in slot [j mod n] until [n] more
    pushes have happened, and the pushes before the last [n] were released
    in their order. *)
Record ring_holds (n : Z) (fbs : list Texture) (s : State) : Prop := {
  ring_cursors : cursors_ok (log s);
  ring_size : size (log s) = n;
  ring_top : top (log s) = Z.of_nat (length fbs) mod n;
  ring_used : used_size (log s) = Z.min (Z.of_nat (length fbs)) n;
  ring_slots : forall (j : nat) (fb : Texture),
      Z.of_nat (length fbs) - n <= Z.of_nat j ->
      fbs !! j = Some fb ->
      slot (log s) (Z.of_nat j mod n) = snapshot fb;
  ring_unloaded :
      unloaded s = rev (LoadImageFromTexture <$> take (length fbs - Z.to_nat n) fbs)
}.

(** The invariant of the frame loop with the configured capacity [n], the
    meaning of distance 0, and the slots that hold nothing. *)
Record log_exact (n : Z) (l : UndoLog) : Prop := {
  exact_ok : log_ok l;
  exact_size : size l = n;
  exact_tip : dist l = 0 -> used_size l = size l;
  exact_unused : forall k, used_size l <= k < size l -> slot l (back l k) = Some None
}.

(** How many pushes ago slot [j] was written, if it is one of the last
    [size] slots written. *)
Definition age (l : UndoLog) (j : Z) : Z := (top l + size l - 1 - j) mod size l.

(** Inputs in which undo is the only request. *)
Definition only_undo (i : Input) : bool :=
  (IsKeyPressed_Q i || IsMouseButtonPressed_SIDE i)
  && negb (IsKeyPressed_C i)
  && negb (IsKeyPressed_W i) && negb (IsMouseButtonPressed_EXTRA i)
  && negb (IsMouseButtonPressed_LEFT i) && negb (IsMouseButtonReleased_LEFT i)
  && negb (IsMouseButtonDown_LEFT i) && negb (IsMouseButtonDown_RIGHT i).

(** Inputs in which redo is the only request. *)
Definition only_redo (i : Input) : bool :=
  (IsKeyPressed_W i || IsMouseButtonPressed_EXTRA i)
  && negb (IsKeyPressed_C i)
  && negb (IsKeyPressed_Q i) && negb (IsMouseButtonPressed_SIDE i)
  && negb (IsMouseButtonPressed_LEFT i) && negb (IsMouseButtonReleased_LEFT i)
  && negb (IsMouseButtonDown_LEFT i) && negb (IsMouseButtonDown_RIGHT i).

(** Inputs in which the left button goes down and nothing else is
    requested of the log. *)
Definition only_press (i : Input) : bool :=
  IsMouseButtonPressed_LEFT i
  && negb (IsKeyPressed_C i)
  && negb (IsKeyPressed_W i) && negb (IsMouseButtonPressed_EXTRA i)
  && negb (IsKeyPressed_Q i) && negb (IsMouseButtonPressed_SIDE i)
  && negb (IsMouseButtonReleased_LEFT i).

(** Inputs in which the left button is released and nothing else is
    requested of the log. *)
Definition only_release (i : Input) : bool :=
  IsMouseButtonReleased_LEFT i
  && negb (IsKeyPressed_C i)
  && negb (IsKeyPressed_W i) && negb (IsMouseButtonPressed_EXTRA i)
  && negb (IsKeyPressed_Q i) && negb (IsMouseButtonPressed_SIDE i)
  && negb (IsMouseButtonPressed_LEFT i).

(** Inputs that request nothing of the log: no Clear, no undo or redo, no
    left press or release.  Paint buttons may be held. *)
Definition no_log_request (i : Input) : bool :=
  negb (IsKeyPressed_C i)
  && negb (IsKeyPressed_W i) && negb (IsMouseButtonPressed_EXTRA i)
  && negb (IsKeyPressed_Q i) && negb (IsMouseButtonPressed_SIDE i)
  && negb (IsMouseButtonPressed_LEFT i) && negb (IsMouseButtonReleased_LEFT i).

(** Inputs in which Save is pressed and, Clear apart, nothing is requested
    of the log. *)
Definition save_request (i : Input) : bool :=
  IsKeyPressed_S i
  && negb (IsKeyPressed_W i) && negb (IsMouseButtonPressed_EXTRA i)
  && negb (IsKeyPressed_Q i) && negb (IsMouseButtonPressed_SIDE i)
  && negb (IsMouseButtonPressed_LEFT i) && negb (IsMouseButtonReleased_LEFT i).

(** Inputs in which the left button goes down and redo is requested, without
    Clear. *)
Definition press_with_redo (i : Input) : bool :=
  IsMouseButtonPressed_LEFT i
  && (IsKeyPressed_W i || IsMouseButtonPressed_EXTRA i)
  && negb (IsKeyPressed_C i).


(** The keys that select a brush colour: 1 to 5. *)
Definition colour_key (key : Z) : bool := (KEY_ONE <=? key) && (key <=? KEY_FIVE).

(** The program from [InitWindow] on, for a list of inputs. *)
Definition run (o : Options) (inputs : list Input) : Result Loop :=
  l <- startup o ;; frames o l inputs.

End Notions.
(** ** A concrete raylib: integer rasters

    Used to run the model on concrete inputs.  A texture is a list of rows
    of pixels; a pixel and a colour are integers; a "float" is a fixed-point
    number, an integer count of thousandths.  Reading a render texture back
    yields the rows in reverse order and drawing with a negated height
    reverses them again.  The five brush colours are 1 to 5. *)
Module IntRaster.

Definition paint_where (inside : Z -> Z -> bool) (c : Z) (t : list (list Z)) : list (list Z) :=
  imap (fun j row =>
          imap (fun i px => if inside (1000 * Z.of_nat i) (1000 * Z.of_nat j) then c else px)
               row) t.

Definition in_circle (centre : Z * Z) (r : Z) (x y : Z) : bool :=
  (x - fst centre) * (x - fst centre) + (y - snd centre) * (y - snd centre) <=? r * r.

Definition in_box (a b : Z * Z) (thick : Z) (x y : Z) : bool :=
  (Z.min (fst a) (fst b) - thick ÷ 2 <=? x) && (x <=? Z.max (fst a) (fst b) + thick ÷ 2)
  && (Z.min (snd a) (snd b) - thick ÷ 2 <=? y) && (y <=? Z.max (snd a) (snd b) + thick ÷ 2).

#[export] Instance raylib : Raylib := {|
  float := Z;
  Color := Z;
  Texture := list (list Z);
  Image := list (list Z);
  float_of_Z := fun z => 1000 * z;
  int_of_float := fun f => f ÷ 1000;
  fadd := Z.add;
  fsub := Z.sub;
  fmul := fun a b => (a * b) ÷ 1000;
  fdiv := fun a b => (a * 1000) ÷ b;
  fmodf := Z.rem;
  fleb := Z.leb;
  feqb := Z.eqb;
  float_0_75 := 750;
  GetColor := fun hex => hex;
  ColorFromHSV := fun h _ _ => 1 + h ÷ 72000;
  LoadRenderTexture := fun w h => replicate (Z.to_nat h) (replicate (Z.to_nat w) 0);
  LoadImageFromTexture := @rev (list Z);
  LoadTextureFromImage := fun img => img;
  ClearBackground := fun c t => map (map (fun _ => c)) t;
  DrawTextureRec_flipped := fun src _ => rev src;
  DrawCircleV := fun centre r c t => paint_where (in_circle centre r) c t;
  DrawLineEx := fun a b thick c t => paint_where (in_box a b thick) c t
|}.

(** A 2x1 canvas in a 2x1 window with a log of [n] entries. *)
Definition tiny (n : Z) : Options :=
  {| canvas_width := 2; canvas_height := 1;
     window_width := 2; window_height := 1;
     undo_log_size := n; background_hexcolor := 7;
     save_path := "beak.png" |}.

(** An event in a [w]x[h] window, the mouse at [(x, y)]. *)
Definition at_size (e : Event) (w h x y : Z) : Input :=
  event e w h (1000 * x, 1000 * y).

(** An event in the 2x1 window, the mouse in its corner. *)
Definition on (e : Event) : Input := at_size e 2 1 0 0.

(** A stroke in the current colour: press, then release. *)
Definition stroke : list Input := [on PressLeft; on ReleaseLeft].

(** The window is laid out, colour 1 is painted and committed, then colour 2. *)
Definition two_strokes : list Input :=
  [on Resize] ++ stroke ++ [on (PressKey 50)] ++ stroke.

(** The loop states the examples start from. *)
Definition blank : Loop :=
  {| st := {| log := new_log 0; framebuffer := []; unloaded := [] |};
     target_x := 400; target_y := 300; brush_radius := 10000;
     prev_mouse_pos := (0, 0); mouse_pos := (0, 0);
     brush_color := 1; exported := []; unloaded_copies := [] |}.

Definition loop_of (r : Result Loop) : Loop :=
  match r with
  | Ok l => l
  | Crash _ => blank
  end.

(** After start-up with three slots. *)
Definition started3 : Loop :=
  Eval vm_compute in loop_of (run (tiny 3) []).

(** Four slots, two strokes, two undos: the initial canvas is selected and
    two newer entries lie between [selected] and [top]. *)
Definition browse4 : list Input := two_strokes ++ [on PressQ; on PressQ].

Definition browsing4 : Loop :=
  Eval vm_compute in loop_of (run (tiny 4) browse4).

(** Then Clear is pressed, and then undo. *)
Definition cleared4 : Loop :=
  Eval vm_compute in loop_of (frame (tiny 4) browsing4 (on PressC)).

Definition cleared4_undone : Loop :=
  Eval vm_compute in loop_of (frame (tiny 4) cleared4 (on PressQ)).

(** After start-up with one slot, and with two. *)
Definition started1 : Loop :=
  Eval vm_compute in loop_of (run (tiny 1) []).

Definition started2 : Loop :=
  Eval vm_compute in loop_of (run (tiny 2) []).

(** Three slots, all used after two strokes; then two undos and a third
    stroke in colour 3. *)
Definition full3 : Loop :=
  Eval vm_compute in loop_of (run (tiny 3) two_strokes).

Definition diverge3 : list Input :=
  two_strokes ++ [on PressQ; on PressQ] ++ [on (PressKey 51)] ++ stroke.

Definition diverged3 : Loop :=
  Eval vm_compute in loop_of (run (tiny 3) diverge3).

(** The state a [Result] holds. *)
Definition state_of (r : Result State) : State :=
  match r with
  | Ok s => s
  | Crash _ => st blank
  end.

(** Left button pressed and redo requested in one iteration. *)
Definition press_and_redo : Input :=
  {| GetScreenWidth := 2; GetScreenHeight := 1; GetKeyPressed := 0;
     GetMouseWheelMove := 0;
     IsKeyPressed_C := false; IsKeyPressed_S := false;
     IsKeyPressed_W := true; IsKeyPressed_Q := false;
     IsMouseButtonPressed_LEFT := true; IsMouseButtonPressed_EXTRA := false;
     IsMouseButtonPressed_SIDE := false; IsMouseButtonReleased_LEFT := false;
     IsMouseButtonDown_LEFT := true; IsMouseButtonDown_MIDDLE := false;
     IsMouseButtonDown_RIGHT := false; IsWindowResized := false;
     GetMousePosition := (0, 0) |}.


(** Three slots, two strokes, two undos: the log is full and its oldest
    entry is selected. *)
Definition browse3 : list Input := two_strokes ++ [on PressQ; on PressQ].

Definition oldest3 : Loop :=
  Eval vm_compute in loop_of (run (tiny 3) browse3).

(** The left button held down (not pressed in this iteration). *)
Definition hold_left : Input :=
  {| GetScreenWidth := 2; GetScreenHeight := 1; GetKeyPressed := 0;
     GetMouseWheelMove := 0;
     IsKeyPressed_C := false; IsKeyPressed_S := false;
     IsKeyPressed_W := false; IsKeyPressed_Q := false;
     IsMouseButtonPressed_LEFT := false; IsMouseButtonPressed_EXTRA := false;
     IsMouseButtonPressed_SIDE := false; IsMouseButtonReleased_LEFT := false;
     IsMouseButtonDown_LEFT := true; IsMouseButtonDown_MIDDLE := false;
     IsMouseButtonDown_RIGHT := false; IsWindowResized := false;
     GetMousePosition := (0, 0) |}.

(** S pressed. *)
Definition press_s : Input :=
  {| GetScreenWidth := 2; GetScreenHeight := 1; GetKeyPressed := 83;
     GetMouseWheelMove := 0;
     IsKeyPressed_C := false; IsKeyPressed_S := true;
     IsKeyPressed_W := false; IsKeyPressed_Q := false;
     IsMouseButtonPressed_LEFT := false; IsMouseButtonPressed_EXTRA := false;
     IsMouseButtonPressed_SIDE := false; IsMouseButtonReleased_LEFT := false;
     IsMouseButtonDown_LEFT := false; IsMouseButtonDown_MIDDLE := false;
     IsMouseButtonDown_RIGHT := false; IsWindowResized := false;
     GetMousePosition := (0, 0) |}.

(** The table entry of [--undo-log-size]. *)
Definition undo_log_size_entry : CmdLineOption :=
  {| name := "--undo-log-size"; format := "ulong";
     type := CMDLINE_OPTION_ULONG; pointer := ref_undo_log_size |}.

End IntRaster.

(** * Properties *)

(** ** Modular arithmetic of the cursors *)

Lemma size_t_small (x : Z) : 0 <= x < 2 ^ 64 -> size_t x = x.
Proof. intros H. unfold size_t. apply Z.mod_small. exact H. Qed.

Lemma size_t_plus_wrap (x : Z) : 0 <= x < 2 ^ 64 -> size_t (x + 2 ^ 64) = x.
Proof.
  intros H. unfold size_t.
  replace (x + 2 ^ 64) with (x + 1 * 2 ^ 64) by lia.
  rewrite Z.mod_add by lia. apply Z.mod_small. exact H.
Qed.

(** A value in the window [0, 2n) is reduced by at most one subtraction. *)
Lemma mod_window (x n : Z) :
  0 < n -> 0 <= x < 2 * n -> x mod n = if x <? n then x else x - n.
Proof.
  intros Hn Hx. destruct (x <? n) eqn:E.
  - apply Z.ltb_lt in E. apply Z.mod_small. lia.
  - apply Z.ltb_ge in E.
    replace x with ((x - n) + 1 * n) at 1 by lia.
    rewrite Z.mod_add by lia. apply Z.mod_small. lia.
Qed.

(** Two numbers less than [n] apart with the same remainder are equal. *)
Lemma mod_inj_window (a b n : Z) :
  0 < n -> a mod n = b mod n -> - n < a - b < n -> a = b.
Proof.
  intros Hn Hab Hd.
  pose proof (Z.div_mod a n ltac:(lia)) as Ha.
  pose proof (Z.div_mod b n ltac:(lia)) as Hb.
  assert (a - b = n * (a / n - b / n)) as E by lia.
  assert (a / n - b / n = 0) by nia.
  lia.
Qed.

Ltac window_step :=
  match goal with
  | |- context [?x mod ?n] => rewrite (mod_window x n) by lia
  | H : context [?x mod ?n] |- _ => rewrite (mod_window x n) in H by lia
  | |- context [?a <? ?b] => destruct (Z.ltb_spec a b)
  | H : context [?a <? ?b] |- _ => destruct (Z.ltb_spec a b)
  end.

(** Reduce every remainder whose argument lies in the window, by cases. *)
Ltac window := repeat window_step.

Section Operations.

Context `{RL : Raylib}.

(** ** Slots *)

Lemma slot_inside (l : UndoLog) (i : Z) :
  0 <= i < Z.of_nat (length (images l)) -> exists v, slot l i = Some v.
Proof.
  intros H. unfold slot. destruct (Z.ltb_spec i 0); [lia|].
  destruct (images l !! Z.to_nat i) eqn:E; [eauto|].
  apply lookup_ge_None in E. lia.
Qed.


Lemma slot_insert (l l' : UndoLog) (i j : Z) (v : option Image) :
  images l' = <[Z.to_nat i := v]> (images l) ->
  0 <= i < Z.of_nat (length (images l)) -> 0 <= j ->
  slot l' j = if j =? i then Some v else slot l j.
Proof.
  intros E Hi Hj. unfold slot. rewrite E.
  destruct (Z.ltb_spec j 0); [lia|].
  destruct (Z.eqb_spec j i) as [->|Hne].
  - apply list_lookup_insert_eq. lia.
  - apply list_lookup_insert_ne. lia.
Qed.

Lemma slot_images (l l' : UndoLog) (i : Z) :
  images l = images l' -> slot l i = slot l' i.
Proof. intros E. unfold slot. rewrite E. reflexivity. Qed.

Lemma content_loaded (l : UndoLog) (i : Z) (img : Image) :
  slot l i = Some (Some img) -> content l i = [img].
Proof. intros E. unfold content. rewrite E. reflexivity. Qed.

Lemma back_range (l : UndoLog) (k : Z) : cursors_ok l -> 0 <= back l k < size l.
Proof. intros [Hs _ _ _ _]. unfold back. apply Z.mod_pos_bound. lia. Qed.

Lemma dist_range (l : UndoLog) : cursors_ok l -> 0 <= dist l < size l.
Proof. intros [Hs _ _ _ _]. unfold dist. apply Z.mod_pos_bound. lia. Qed.

Lemma log_top_dist_ok (l : UndoLog) :
  cursors_ok l -> log_top_dist l = Ok (dist l).
Proof.
  intros [Hs _ Ht Hsel _]. unfold log_top_dist, umod, dist.
  destruct (Z.eqb_spec (size l) 0); [lia|].
  rewrite size_t_small by lia. reflexivity.
Qed.

(** A full log has a loaded image under [top]. *)
Lemma full_top_loaded (l : UndoLog) :
  slots_ok l -> used_size l = size l -> loaded l (top l).
Proof.
  intros [C L] Hfull. destruct C as [Hs Hlen Ht Hsel Hu].
  specialize (L (size l - 1) ltac:(lia)).
  unfold back in L.
  replace (top l + size l - 1 - (size l - 1)) with (top l) in L by lia.
  rewrite Z.mod_small in L by lia. exact L.
Qed.

(** ** [undo_log_push] *)

Lemma undo_log_push_ok (s : State) :
  slots_ok (log s) -> undo_log_push s = Ok (pushed s).
Proof.
  intros Hok. pose proof Hok as [C L]. destruct C as [Hs Hlen Ht Hsel Hu].
  unfold undo_log_push, pushed, assert.
  destruct (Z.leb_spec (used_size (log s)) (size (log s))); [|lia].
  cbn [bind].
  destruct (Z.eqb_spec (used_size (log s)) (size (log s))) as [Hfull|Hfree].
  - destruct (full_top_loaded _ Hok Hfull) as [img Himg].
    unfold unload_slot. rewrite Himg. cbn [bind log framebuffer unloaded].
    unfold store_slot.
    rewrite (slot_insert (log s) _ (top (log s)) (top (log s)) None)
      by (try reflexivity; lia).
    rewrite Z.eqb_refl. cbn [bind set_images images size top used_size selected].
    unfold umod. destruct (Z.eqb_spec (size (log s)) 0); [lia|].
    cbn [bind]. rewrite !size_t_small by lia.
    destruct (Z.ltb_spec (used_size (log s)) (size (log s))); [lia|].
    rewrite list_insert_insert_eq, (content_loaded _ _ _ Himg).
    f_equal. f_equal. f_equal. lia.
  - cbn [bind]. unfold store_slot.
    destruct (slot_inside (log s) (top (log s)) ltac:(lia)) as [v ->].
    cbn [bind set_images images size top used_size selected].
    unfold umod. destruct (Z.eqb_spec (size (log s)) 0); [lia|].
    cbn [bind]. rewrite !size_t_small by lia.
    destruct (Z.ltb_spec (used_size (log s)) (size (log s))); [|lia].
    f_equal. f_equal. f_equal. lia.
Qed.

Lemma slot_pushed (s : State) (j : Z) :
  cursors_ok (log s) -> 0 <= j ->
  slot (log (pushed s)) j =
  if j =? top (log s) then Some (Some (LoadImageFromTexture (framebuffer s)))
  else slot (log s) j.
Proof.
  intros [Hs Hlen Ht Hsel Hu] Hj.
  apply slot_insert; [reflexivity | lia | lia].
Qed.

Lemma pushed_cursors_ok (s : State) :
  cursors_ok (log s) -> cursors_ok (log (pushed s)).
Proof.
  intros [Hs Hlen Ht Hsel Hu].
  split; cbn [pushed log images size used_size top selected].
  - lia.
  - rewrite length_insert. lia.
  - apply Z.mod_pos_bound. lia.
  - lia.
  - lia.
Qed.

Lemma pushed_log_ok (s : State) :
  slots_ok (log s) -> log_ok (log (pushed s)).
Proof.
  intros Hok. pose proof Hok as [C L].
  pose proof (pushed_cursors_ok s C) as C'.
  pose proof C as [Hs Hlen Ht Hsel Hu].
  split; [split|..]; [exact C' | |..].
  - intros k Hk. unfold loaded.
    pose proof (back_range _ k C') as Hb.
    rewrite slot_pushed by (assumption || lia).
    destruct (Z.eqb_spec (back (log (pushed s)) k) (top (log s))) as [E|NE]; [eauto|].
    cbn [pushed log used_size size] in Hk.
    assert (back (log (pushed s)) k = back (log s) (k - 1)) as ->.
    { unfold back in *. cbn [pushed log images size used_size top selected] in *.
      window; lia. }
    apply L.
    assert (k <> 0).
    { intros ->. apply NE. unfold back.
      cbn [pushed log images size used_size top selected]. window; lia. }
    lia.
  - cbn [pushed log used_size]. lia.
  - unfold dist. cbn [pushed log images size used_size top selected].
    window; lia.
Qed.

(** ** [undo_log_copy] *)

Lemma undo_log_copy_eq (s : State) (offset i : Z) :
  cursors_ok (log s) ->
  (offset = 1 /\ i = (selected (log s) + 1) mod size (log s)) \/
  (offset = -1 /\ i = (selected (log s) + size (log s) - 1) mod size (log s)) ->
  undo_log_copy s offset =
  match slot (log s) i with
  | Some (Some _) => Ok (copied i s)
  | Some None => Crash ImageNotLoaded
  | None => Crash OutOfBounds
  end.
Proof.
  intros [Hs Hlen Ht Hsel Hu] Hoff.
  unfold undo_log_copy, umod.
  destruct (Z.eqb_spec (size (log s)) 0); [lia|]. cbn [bind].
  assert (size_t (selected (log s) + size (log s) + size_t offset) mod size (log s) = i) as ->.
  { destruct Hoff as [[-> ->]|[-> ->]].
    - rewrite (size_t_small 1) by lia. rewrite size_t_small by lia.
      replace (selected (log s) + size (log s) + 1)
        with (selected (log s) + 1 + 1 * size (log s)) by lia.
      apply Z.mod_add. lia.
    - change (size_t (-1)) with (2 ^ 64 - 1).
      replace (selected (log s) + size (log s) + (2 ^ 64 - 1))
        with ((selected (log s) + size (log s) - 1) + 2 ^ 64) by lia.
      rewrite size_t_plus_wrap by lia. reflexivity. }
  unfold load_slot, copied, content.
  rewrite (slot_images _ (log s)) by reflexivity.
  destruct (slot (log s) i) as [[img|]|]; reflexivity.
Qed.

Lemma copied_cursors_ok (s : State) (i : Z) :
  cursors_ok (log s) -> 0 <= i < size (log s) -> cursors_ok (log (copied i s)).
Proof. intros [Hs Hlen Ht Hsel Hu] Hi. split; cbn; auto. Qed.

(** ** The loop that unloads the entries between [selected] and [top] *)

Lemma unloaded_at_cursors_ok (i : Z) (s : State) :
  cursors_ok (log s) -> cursors_ok (log (unloaded_at i s)).
Proof.
  intros [Hs Hlen Ht Hsel Hu]. split; cbn; auto.
  rewrite length_insert. exact Hlen.
Qed.

Lemma slot_unloaded_at (i j : Z) (s : State) :
  cursors_ok (log s) -> 0 <= i < size (log s) -> 0 <= j ->
  slot (log (unloaded_at i s)) j = if j =? i then Some None else slot (log s) j.
Proof.
  intros [Hs Hlen Ht Hsel Hu] Hi Hj.
  apply slot_insert; [reflexivity | lia | lia].
Qed.

Lemma unloaded_from_cursors_ok (n : nat) :
  forall (i : Z) (s : State),
  cursors_ok (log s) -> cursors_ok (log (unloaded_from n i s)).
Proof.
  induction n as [|n IH]; intros i s C; cbn [unloaded_from]; [exact C|].
  apply IH. apply unloaded_at_cursors_ok. exact C.
Qed.

Lemma unloaded_from_fields (n : nat) :
  forall (i : Z) (s : State),
  let s' := unloaded_from n i s in
  size (log s') = size (log s) /\ used_size (log s') = used_size (log s) /\
  top (log s') = top (log s) /\ selected (log s') = selected (log s) /\
  framebuffer s' = framebuffer s.
Proof.
  induction n as [|n IH]; intros i s; cbn [unloaded_from]; [tauto|].
  specialize (IH ((i + 1) mod size (log s)) (unloaded_at i s)).
  cbn zeta in IH. exact IH.
Qed.

Lemma slot_unloaded_from (n : nat) :
  forall (i j : Z) (s : State),
  cursors_ok (log s) -> 0 <= i < size (log s) -> 0 <= j < size (log s) ->
  Z.of_nat n <= size (log s) ->
  slot (log (unloaded_from n i s)) j =
  if (j + size (log s) - i) mod size (log s) <? Z.of_nat n
  then Some None else slot (log s) j.
Proof.
  induction n as [|n IH]; intros i j s C Hi Hj Hn; cbn [unloaded_from].
  - pose proof C as [Hs _ _ _ _].
    destruct (Z.ltb_spec ((j + size (log s) - i) mod size (log s)) (Z.of_nat 0));
      [|reflexivity].
    pose proof (Z.mod_pos_bound (j + size (log s) - i) (size (log s))). lia.
  - pose proof C as [Hs _ _ _ _].
    pose proof (unloaded_at_cursors_ok i s C) as C1.
    assert (size (log (unloaded_at i s)) = size (log s)) as Es by reflexivity.
    rewrite IH.
    + rewrite Es, slot_unloaded_at by (assumption || lia).
      destruct (Z.eqb_spec j i) as [->|NE]; window; try reflexivity; lia.
    + exact C1.
    + rewrite Es. apply Z.mod_pos_bound. lia.
    + rewrite Es. lia.
    + rewrite Es. lia.
Qed.

Lemma release_range_ok (n : nat) :
  forall (fuel : nat) (i : Z) (s : State),
  cursors_ok (log s) -> 0 <= i < size (log s) ->
  (top (log s) + size (log s) - i) mod size (log s) = Z.of_nat n ->
  (n <= fuel)%nat ->
  (forall m, 0 <= m < Z.of_nat n -> loaded (log s) ((i + m) mod size (log s))) ->
  release_range fuel i s = Ok (unloaded_from n i s).
Proof.
  induction n as [|n IH]; intros fuel i s C Hi Hd Hfuel Hload;
    pose proof C as [Hs Hlen Ht Hsel Hu].
  - assert (i = top (log s)) as -> by (window; lia).
    destruct fuel; cbn [release_range unloaded_from]; rewrite Z.eqb_refl; reflexivity.
  - destruct fuel as [|fuel]; [lia|].
    cbn [release_range unloaded_from].
    destruct (Z.eqb_spec i (top (log s))) as [->|NE].
    { exfalso. window; lia. }
    destruct (Hload 0 ltac:(lia)) as [img Himg].
    replace (i + 0) with i in Himg by lia.
    rewrite Z.mod_small in Himg by lia.
    unfold unload_slot at 1. rewrite Himg. cbn [bind].
    change {| log := set_images (log s) (<[Z.to_nat i:=None]> (images (log s)));
              framebuffer := framebuffer s; unloaded := img :: unloaded s |}
      with {| log := log (unloaded_at i s);
              framebuffer := framebuffer s; unloaded := img :: unloaded s |}.
    assert ({| log := log (unloaded_at i s);
              framebuffer := framebuffer s; unloaded := img :: unloaded s |}
            = unloaded_at i s) as ->.
    { unfold unloaded_at. rewrite (content_loaded _ _ _ Himg). reflexivity. }
    unfold umod.
    assert (size (log (unloaded_at i s)) = size (log s)) as Es by reflexivity.
    rewrite Es.
    destruct (Z.eqb_spec (size (log s)) 0); [lia|]. cbn [bind].
    rewrite size_t_small by lia.
    pose proof (unloaded_at_cursors_ok i s C) as C1.
    apply IH.
    + exact C1.
    + rewrite Es. apply Z.mod_pos_bound. lia.
    + rewrite Es. cbn [unloaded_at log set_images top].
      window; lia.
    + lia.
    + intros m Hm. rewrite Es. unfold loaded.
      pose proof (Z.mod_pos_bound ((i + 1) mod size (log s) + m) (size (log s)) ltac:(lia)).
      rewrite slot_unloaded_at by (assumption || lia).
      destruct (Z.eqb_spec (((i + 1) mod size (log s) + m) mod size (log s)) i)
        as [E|NE'].
      { exfalso. window; lia. }
      destruct (Hload (m + 1) ltac:(lia)) as [img' Himg'].
      exists img'. rewrite <- Himg'. f_equal. window; lia.
Qed.

(** The fuel of [release_range]: every iteration unloads a loaded slot, so
    the loop stops, with [Ok] or a fault, within as many iterations as
    there are loaded slots; fuel beyond that changes nothing. *)
Lemma loaded_count_length (imgs : list (option Image)) :
  (loaded_count imgs <= length imgs)%nat.
Proof.
  induction imgs as [|[img|] rest IH]; cbn [loaded_count length]; lia.
Qed.

Lemma loaded_count_unload (imgs : list (option Image)) :
  forall (n : nat) (img : Image),
  imgs !! n = Some (Some img) ->
  S (loaded_count (<[n := None]> imgs)) = loaded_count imgs.
Proof.
  induction imgs as [|o rest IH]; intros n img H; [discriminate|].
  destruct n as [|n]; cbn in H |- *.
  - injection H as ->. reflexivity.
  - destruct o; cbn [loaded_count]; rewrite <- (IH n img H); reflexivity.
Qed.

Lemma unload_slot_count (i : Z) (s s1 : State) :
  unload_slot i s = Ok s1 ->
  size (log s1) = size (log s) /\ top (log s1) = top (log s) /\
  S (loaded_count (images (log s1))) = loaded_count (images (log s)).
Proof.
  unfold unload_slot, slot. intros H.
  destruct (i <? 0); [discriminate|].
  destruct (images (log s) !! Z.to_nat i) as [[img|]|] eqn:E; try discriminate.
  injection H as <-. cbn [log set_images images size top].
  repeat split. apply (loaded_count_unload _ _ img). exact E.
Qed.

Lemma release_range_fuel (fuel : nat) :
  forall (i : Z) (s : State),
  (loaded_count (images (log s)) < fuel)%nat ->
  release_range (S fuel) i s = release_range fuel i s.
Proof.
  induction fuel as [|fuel IH]; intros i s Hc; [lia|].
  cbn [release_range].
  destruct (i =? top (log s)); [reflexivity|].
  destruct (unload_slot i s) as [s1|f] eqn:E; cbn [bind]; [|reflexivity].
  destruct (unload_slot_count i s s1 E) as (Es & Et & Ec).
  destruct (umod (size_t (i + 1)) (size (log s1))) as [i'|f]; cbn [bind];
    [|reflexivity].
  specialize (IH i' s1 ltac:(lia)). cbn [release_range] in IH. exact IH.
Qed.

Lemma release_range_enough_fuel (extra : nat) (i : Z) (s : State) :
  release_range (S (length (images (log s))) + extra) i s =
  release_range (S (length (images (log s)))) i s.
Proof.
  induction extra as [|extra IH].
  - rewrite Nat.add_0_r. reflexivity.
  - rewrite <- IH. rewrite Nat.add_succ_r. apply release_range_fuel.
    pose proof (loaded_count_length (images (log s))). lia.
Qed.

(** ** Clearing the log from [selected] to [top] *)

Lemma clear_selected_to_top_ok (s : State) :
  log_ok (log s) -> 2 <= dist (log s) ->
  clear_selected_to_top s (dist (log s)) = Ok (cleared_to_top (dist (log s)) s).
Proof.
  intros [[C L] Hne Hd] H2. pose proof C as [Hs Hlen Ht Hsel Hu].
  pose proof (dist_range _ C) as Hdr.
  unfold clear_selected_to_top, umod.
  destruct (Z.eqb_spec (size (log s)) 0); [lia|]. cbn [bind].
  rewrite size_t_small by lia.
  rewrite (release_range_ok (Z.to_nat (dist (log s) - 1))).
  - cbn [bind].
    destruct (unloaded_from_fields (Z.to_nat (dist (log s) - 1))
                ((selected (log s) + 1) mod size (log s)) s)
      as (Es & Eu & Et & Esel & Efb).
    rewrite Es, Esel.
    destruct (Z.eqb_spec (size (log s)) 0); [lia|]. cbn [bind].
    unfold cleared_to_top. rewrite Eu, Efb.
    rewrite (size_t_small (dist (log s) - 1)) by lia.
    rewrite !size_t_small by lia. reflexivity.
  - exact C.
  - apply Z.mod_pos_bound. lia.
  - unfold dist in *. rewrite Z2Nat.id by lia. window; lia.
  - lia.
  - intros m Hm. rewrite Z2Nat.id in Hm by lia.
    specialize (L (dist (log s) - 2 - m) ltac:(lia)).
    assert (back (log s) (dist (log s) - 2 - m)
            = ((selected (log s) + 1) mod size (log s) + m) mod size (log s)) as <-.
    { unfold back, dist in *. window; lia. }
    exact L.
Qed.

Lemma slot_cleared_to_top (s : State) (j : Z) :
  cursors_ok (log s) -> 2 <= dist (log s) -> 0 <= j < size (log s) ->
  slot (log (cleared_to_top (dist (log s)) s)) j =
  if (j + size (log s) - (selected (log s) + 1) mod size (log s)) mod size (log s)
     <? dist (log s) - 1
  then Some None else slot (log s) j.
Proof.
  intros C H2 Hj. pose proof C as [Hs Hlen Ht Hsel Hu].
  pose proof (dist_range _ C) as Hdr.
  rewrite (slot_images _ (log (unloaded_from (Z.to_nat (dist (log s) - 1))
             ((selected (log s) + 1) mod size (log s)) s))) by reflexivity.
  rewrite slot_unloaded_from.
  - rewrite Z2Nat.id by lia. reflexivity.
  - exact C.
  - apply Z.mod_pos_bound. lia.
  - exact Hj.
  - lia.
Qed.

Lemma cleared_to_top_cursors_ok (s : State) :
  log_ok (log s) -> 2 <= dist (log s) ->
  cursors_ok (log (cleared_to_top (dist (log s)) s)).
Proof.
  intros [[C L] Hne Hd] H2. pose proof C as [Hs Hlen Ht Hsel Hu].
  pose proof (dist_range _ C) as Hdr.
  pose proof (unloaded_from_cursors_ok (Z.to_nat (dist (log s) - 1))
                ((selected (log s) + 1) mod size (log s)) s C) as [_ Hlen' _ _ _].
  destruct (unloaded_from_fields (Z.to_nat (dist (log s) - 1))
              ((selected (log s) + 1) mod size (log s)) s)
    as (Es & Eu & Et & Esel & Efb).
  split; cbn [cleared_to_top log images size used_size top selected].
  - lia.
  - rewrite Hlen'. exact Es.
  - apply Z.mod_pos_bound. lia.
  - lia.
  - lia.
Qed.

Lemma cleared_to_top_log_ok (s : State) :
  log_ok (log s) -> 2 <= dist (log s) ->
  log_ok (log (cleared_to_top (dist (log s)) s)).
Proof.
  intros Hok H2. pose proof (cleared_to_top_cursors_ok s Hok H2) as C'.
  pose proof Hok as [[C L] Hne Hd]. pose proof C as [Hs Hlen Ht Hsel Hu].
  pose proof (dist_range _ C) as Hdr.
  split; [split|..]; [exact C' | |..].
  - intros k Hk. cbn [cleared_to_top log used_size] in Hk.
    pose proof (back_range _ k C') as Hb.
    unfold loaded. rewrite slot_cleared_to_top by (assumption || exact Hb).
    assert (back (log (cleared_to_top (dist (log s)) s)) k
            = back (log s) (k + dist (log s) - 1)) as E.
    { unfold back, dist in *.
      cbn [cleared_to_top log images size used_size top selected] in *.
      window; lia. }
    rewrite E.
    match goal with |- context [?a <? ?b] => destruct (Z.ltb_spec a b) as [Hin|Hout] end.
    + exfalso. unfold back, dist in *. window; lia.
    + apply L. lia.
  - cbn [cleared_to_top log used_size]. lia.
  - unfold dist in *. cbn [cleared_to_top log images size used_size top selected].
    window; lia.
Qed.

(** Right after the clearing, the slot after [selected] holds no image. *)
Lemma cleared_to_top_next_unloaded (s : State) :
  cursors_ok (log s) -> 2 <= dist (log s) ->
  slot (log (cleared_to_top (dist (log s)) s))
       ((selected (log s) + 1) mod size (log s)) = Some None.
Proof.
  intros C H2. pose proof C as [Hs Hlen Ht Hsel Hu].
  pose proof (dist_range _ C) as Hdr.
  rewrite slot_cleared_to_top by (try assumption; apply Z.mod_pos_bound; lia).
  match goal with |- context [?a <? ?b] => destruct (Z.ltb_spec a b) as [Hin|Hout] end;
    [reflexivity|].
  exfalso. window; lia.
Qed.

End Operations.

(** A conjunction of requests, such as [only_undo i = true], taken apart
    into one equation per key or button. *)
Ltac requests H :=
  repeat match type of H with
         | _ && _ = true =>
             let H' := fresh "Hflag" in
             apply andb_prop in H as [H H'];
             try apply negb_true_iff in H'
         end;
  try apply negb_true_iff in H.

Ltac use_requests :=
  repeat match goal with
         | E : ?x = false |- context [?x] => rewrite E
         | E : ?x = true |- context [?x] => rewrite E
         end.

Section LoopInvariant.

Context `{RL : Raylib}.

(** ** The invariant along the frame loop *)

Lemma copied_slots_ok (s : State) (i : Z) :
  slots_ok (log s) -> 0 <= i < size (log s) -> slots_ok (log (copied i s)).
Proof.
  intros [C L] Hi. split.
  - apply copied_cursors_ok; assumption.
  - exact L.
Qed.

Lemma copied_prev_log_ok (s : State) :
  log_ok (log s) -> dist (log s) < used_size (log s) ->
  log_ok (log (copied ((selected (log s) + size (log s) - 1) mod size (log s)) s)).
Proof.
  intros [S Hne Hd] Hlt. pose proof S as [C L].
  pose proof C as [Hs Hlen Ht Hsel Hu].
  split.
  - apply copied_slots_ok; [exact S|]. apply Z.mod_pos_bound. lia.
  - exact Hne.
  - unfold dist in *. cbn [copied log images size used_size top selected].
    window; lia.
Qed.

Lemma copied_next_log_ok (s : State) :
  log_ok (log s) -> 2 <= dist (log s) ->
  let s' := copied ((selected (log s) + 1) mod size (log s)) s in
  log_ok (log s') /\ dist (log s') = dist (log s) - 1.
Proof.
  intros [S Hne Hd] H2. pose proof S as [C L].
  pose proof C as [Hs Hlen Ht Hsel Hu].
  assert (dist (log (copied ((selected (log s) + 1) mod size (log s)) s))
          = dist (log s) - 1) as E.
  { unfold dist in *. cbn [copied log images size used_size top selected].
    window; lia. }
  cbn zeta. split; [|exact E]. split.
  - apply copied_slots_ok; [exact S|]. apply Z.mod_pos_bound. lia.
  - exact Hne.
  - rewrite E. cbn [copied log used_size]. lia.
Qed.

Lemma undo_log_copy_next_inv (s s' : State) :
  cursors_ok (log s) -> undo_log_copy s 1 = Ok s' ->
  s' = copied ((selected (log s) + 1) mod size (log s)) s.
Proof.
  intros C H.
  rewrite (undo_log_copy_eq s 1 ((selected (log s) + 1) mod size (log s)))
    in H by (auto; left; auto).
  destruct (slot (log s) _) as [[img|]|]; congruence.
Qed.

Lemma undo_log_copy_prev_inv (s s' : State) :
  cursors_ok (log s) -> undo_log_copy s (-1) = Ok s' ->
  s' = copied ((selected (log s) + size (log s) - 1) mod size (log s)) s.
Proof.
  intros C H.
  rewrite (undo_log_copy_eq s (-1) ((selected (log s) + size (log s) - 1) mod size (log s)))
    in H by (auto; right; auto).
  destruct (slot (log s) _) as [[img|]|]; congruence.
Qed.

(** Redo in the iteration that cleared the log reads the slot that was just
    unloaded. *)
Lemma redo_after_clearing_crashes (s : State) :
  log_ok (log s) -> 2 <= dist (log s) ->
  undo_log_copy (cleared_to_top (dist (log s)) s) 1 = Crash ImageNotLoaded.
Proof.
  intros Hok H2. pose proof Hok as [[C L] Hne Hd].
  pose proof (cleared_to_top_cursors_ok s Hok H2) as C'.
  rewrite (undo_log_copy_eq _ 1 ((selected (log s) + 1) mod size (log s)))
    by (auto; left; auto).
  rewrite cleared_to_top_next_unloaded by assumption. reflexivity.
Qed.

(** The part of [history_step] before the push. *)
Lemma navigation_log_ok (s s2 s3 : State) (i : Input) :
  log_ok (log s) ->
  (if 1 <? dist (log s) then
     s1 <- (if IsMouseButtonPressed_LEFT i
            then clear_selected_to_top s (dist (log s))
            else Ok s) ;;
     if IsKeyPressed_W i || IsMouseButtonPressed_EXTRA i
     then undo_log_copy s1 1
     else Ok s1
   else Ok s) = Ok s2 ->
  (if (dist (log s) <? used_size (log s2))
      && (IsKeyPressed_Q i || IsMouseButtonPressed_SIDE i)
   then undo_log_copy s2 (-1)
   else Ok s2) = Ok s3 ->
  log_ok (log s3).
Proof.
  intros Hok H2 H3.
  assert (log_ok (log s2) /\
          (dist (log s) < used_size (log s2) -> dist (log s2) < used_size (log s2)))
    as [Hok2 Hd2].
  { destruct (Z.ltb_spec 1 (dist (log s))) as [Hd|Hd].
    - destruct (IsMouseButtonPressed_LEFT i).
      + rewrite clear_selected_to_top_ok in H2 by (assumption || lia).
        cbn [bind] in H2.
        destruct (IsKeyPressed_W i || IsMouseButtonPressed_EXTRA i).
        * rewrite redo_after_clearing_crashes in H2 by (assumption || lia).
          discriminate.
        * injection H2 as <-. split.
          -- apply cleared_to_top_log_ok; [assumption | lia].
          -- pose proof Hok as [[C L] Hne Hdu]. pose proof C as [Hs Hlen Ht Hsel Hu].
             unfold dist in *.
             cbn [cleared_to_top log images size used_size top selected].
             intros ?. window; lia.
      + cbn [bind] in H2.
        destruct (IsKeyPressed_W i || IsMouseButtonPressed_EXTRA i).
        * pose proof Hok as [[C L] Hne Hdu].
          apply undo_log_copy_next_inv in H2; [|exact C]. subst s2.
          destruct (copied_next_log_ok s Hok ltac:(lia)) as [Hok' E].
          split; [exact Hok'|]. rewrite E. cbn [copied log used_size]. lia.
        * injection H2 as <-. split; [exact Hok | auto].
    - injection H2 as <-. split; [exact Hok | auto]. }
  destruct (Z.ltb_spec (dist (log s)) (used_size (log s2))) as [Hlt|Hge];
    cbn [andb] in H3.
  - destruct (IsKeyPressed_Q i || IsMouseButtonPressed_SIDE i).
    + pose proof Hok2 as [[C L] Hne Hdu].
      apply undo_log_copy_prev_inv in H3; [|exact C]. subst s3.
      apply copied_prev_log_ok; auto.
    + injection H3 as <-. exact Hok2.
  - injection H3 as <-. exact Hok2.
Qed.

Lemma bind_ok {A B : Type} (c : Result A) (k : A -> Result B) (b : B) :
  (x <- c ;; k x) = Ok b -> exists a, c = Ok a /\ k a = Ok b.
Proof. destruct c as [a|f]; cbn [bind]; [eauto | discriminate]. Qed.

Lemma history_step_log_ok (s s' : State) (i : Input) :
  log_ok (log s) -> history_step s i = Ok s' -> log_ok (log s').
Proof.
  intros Hok H. unfold history_step in H.
  pose proof Hok as [[C L] Hne Hd].
  rewrite log_top_dist_ok in H by exact C. cbn [bind] in H.
  apply bind_ok in H as (s2 & H2 & H).
  apply bind_ok in H as (s3 & H3 & H).
  pose proof (navigation_log_ok s s2 s3 i Hok H2 H3) as Hok3.
  destruct (IsMouseButtonReleased_LEFT i).
  - pose proof Hok3 as [S3 _ _].
    rewrite undo_log_push_ok in H by exact S3.
    injection H as <-. apply pushed_log_ok. exact S3.
  - injection H as <-. exact Hok3.
Qed.

Lemma clear_framebuffer_ok (s : State) (color : Color) :
  slots_ok (log s) ->
  clear_framebuffer s color =
  Ok (pushed (with_framebuffer (ClearBackground color (framebuffer s)) s)).
Proof. intros S. unfold clear_framebuffer. apply undo_log_push_ok. exact S. Qed.

Lemma frame_log_ok (o : Options) (l l' : Loop) (i : Input) :
  log_ok (log (st l)) -> frame o l i = Ok l' -> log_ok (log (st l')).
Proof.
  intros Hok H. unfold frame in H. cbn zeta in H.
  apply bind_ok in H as (s1 & H1 & H).
  apply bind_ok in H as (s2 & H2 & H).
  injection H as <-. cbn [st log].
  apply (history_step_log_ok s1 s2 i); [|exact H2].
  destruct (IsKeyPressed_C i).
  - pose proof Hok as [S _ _].
    rewrite clear_framebuffer_ok in H1 by exact S.
    injection H1 as <-. apply pushed_log_ok. exact S.
  - injection H1 as <-. exact Hok.
Qed.

Lemma new_log_slots_ok (n : Z) : 0 < n < 2 ^ 63 -> slots_ok (new_log n).
Proof.
  intros Hn. split; [split|]; cbn [new_log images size used_size top selected];
    try lia.
  rewrite length_replicate. lia.
Qed.

Lemma startup_eq (o : Options) :
  0 < undo_log_size o < 2 ^ 63 ->
  exists l, startup o = Ok l /\
    st l = pushed {| log := new_log (undo_log_size o);
                     framebuffer := ClearBackground (GetColor (background_hexcolor o))
                                      (LoadRenderTexture (canvas_width o) (canvas_height o));
                     unloaded := [] |}.
Proof.
  intros Hn. unfold startup. cbn zeta.
  rewrite clear_framebuffer_ok by (apply new_log_slots_ok; exact Hn).
  cbn [bind]. eexists. split; reflexivity.
Qed.

Lemma startup_log_ok (o : Options) (l : Loop) :
  0 < undo_log_size o < 2 ^ 63 -> startup o = Ok l -> log_ok (log (st l)).
Proof.
  intros Hn H. destruct (startup_eq o Hn) as (l0 & E & Est).
  rewrite E in H. injection H as <-. rewrite Est.
  apply pushed_log_ok. apply new_log_slots_ok. exact Hn.
Qed.

Lemma reachable_log_ok (o : Options) (l : Loop) :
  0 < undo_log_size o < 2 ^ 63 -> reachable o l -> log_ok (log (st l)).
Proof.
  intros Hn R. induction R as [l H | l i l' R IH H].
  - apply (startup_log_ok o); assumption.
  - apply (frame_log_ok o l l' i); assumption.
Qed.

(** An iteration in which nothing navigates, clears or pushes leaves log and
    released images as they are. *)
Lemma history_step_idle (s : State) (i : Input) :
  cursors_ok (log s) ->
  (1 <? dist (log s)) && (IsMouseButtonPressed_LEFT i) = false ->
  (1 <? dist (log s)) && (IsKeyPressed_W i || IsMouseButtonPressed_EXTRA i) = false ->
  (dist (log s) <? used_size (log s))
    && (IsKeyPressed_Q i || IsMouseButtonPressed_SIDE i) = false ->
  IsMouseButtonReleased_LEFT i = false ->
  history_step s i = Ok s.
Proof.
  intros C Hp Hw Hq Hr. unfold history_step.
  rewrite log_top_dist_ok by exact C. cbn [bind].
  destruct (1 <? dist (log s)); cbn [andb] in Hp, Hw.
  - rewrite Hp. cbn [bind]. rewrite Hw. cbn [bind]. rewrite Hq, Hr. reflexivity.
  - cbn [bind]. rewrite Hq, Hr. reflexivity.
Qed.

(** *** What single requests do *)

Lemma undo_log_copy_prev_ok (s : State) :
  log_ok (log s) -> dist (log s) < used_size (log s) ->
  undo_log_copy s (-1) =
  Ok (copied ((selected (log s) + size (log s) - 1) mod size (log s)) s).
Proof.
  intros [[C L] Hne Hd] Hlt. pose proof C as [Hs Hlen Ht Hsel Hu].
  pose proof (dist_range _ C) as Hdr.
  rewrite (undo_log_copy_eq s (-1) ((selected (log s) + size (log s) - 1) mod size (log s)))
    by (auto; right; auto).
  destruct (L (dist (log s)) ltac:(lia)) as [img Himg].
  assert (back (log s) (dist (log s))
          = (selected (log s) + size (log s) - 1) mod size (log s)) as E.
  { unfold back, dist in *. window; lia. }
  rewrite E in Himg. rewrite Himg. reflexivity.
Qed.

Lemma undo_log_copy_next_ok (s : State) :
  log_ok (log s) -> 2 <= dist (log s) ->
  undo_log_copy s 1 = Ok (copied ((selected (log s) + 1) mod size (log s)) s).
Proof.
  intros [[C L] Hne Hd] H2. pose proof C as [Hs Hlen Ht Hsel Hu].
  pose proof (dist_range _ C) as Hdr.
  rewrite (undo_log_copy_eq s 1 ((selected (log s) + 1) mod size (log s)))
    by (auto; left; auto).
  destruct (L (dist (log s) - 2) ltac:(lia)) as [img Himg].
  assert (back (log s) (dist (log s) - 2)
          = (selected (log s) + 1) mod size (log s)) as E.
  { unfold back, dist in *. window; lia. }
  rewrite E in Himg. rewrite Himg. reflexivity.
Qed.

Lemma history_step_undo (s : State) (i : Input) :
  log_ok (log s) -> only_undo i = true ->
  dist (log s) < used_size (log s) ->
  history_step s i =
  Ok (copied ((selected (log s) + size (log s) - 1) mod size (log s)) s).
Proof.
  intros Hok Hi Hlt. pose proof Hok as [[C L] Hne Hd].
  unfold history_step. rewrite log_top_dist_ok by exact C. cbn [bind].
  unfold only_undo in Hi. requests Hi.
  assert ((dist (log s) <? used_size (log s)) = true) as Eg by (apply Z.ltb_lt; exact Hlt).
  use_requests.
  destruct (1 <? dist (log s)); cbn [bind orb andb]; rewrite Eg; cbn [bind orb andb];
    rewrite undo_log_copy_prev_ok by assumption; reflexivity.
Qed.

Lemma history_step_redo (s : State) (i : Input) :
  log_ok (log s) -> only_redo i = true ->
  2 <= dist (log s) ->
  history_step s i = Ok (copied ((selected (log s) + 1) mod size (log s)) s).
Proof.
  intros Hok Hi H2. pose proof Hok as [[C L] Hne Hd].
  unfold history_step. rewrite log_top_dist_ok by exact C. cbn [bind].
  unfold only_redo in Hi.
  assert ((1 <? dist (log s)) = true) as Eg by (apply Z.ltb_lt; lia).
  rewrite Eg. requests Hi. use_requests. cbn [bind orb andb].
  rewrite undo_log_copy_next_ok by assumption. cbn [bind].
  rewrite andb_false_r. reflexivity.
Qed.

(** An iteration without Clear and without a paint button down does to log
    and canvas what [history_step] does. *)
Lemma frame_quiet (o : Options) (l : Loop) (i : Input) (s' : State) :
  IsKeyPressed_C i = false ->
  IsMouseButtonDown_LEFT i = false -> IsMouseButtonDown_RIGHT i = false ->
  history_step (st l) i = Ok s' ->
  exists l', frame o l i = Ok l' /\ st l' = s'.
Proof.
  intros Hc Hl Hr Hh. unfold frame. cbn zeta.
  rewrite Hc. cbn [bind]. rewrite Hh. cbn [bind]. rewrite Hl, Hr. cbn [orb].
  eexists. split; [reflexivity|]. cbn [st]. destruct s'. reflexivity.
Qed.

(** An iteration in which only Clear is pressed. *)
Lemma frame_clear (o : Options) (l : Loop) (w h : Z) (m : Vector2) :
  slots_ok (log (st l)) ->
  exists l', frame o l (event PressC w h m) = Ok l' /\
    st l' = pushed (with_framebuffer
                      (ClearBackground (GetColor (background_hexcolor o))
                         (framebuffer (st l))) (st l)).
Proof.
  intros S. unfold frame. cbn zeta.
  change (IsKeyPressed_C (event PressC w h m)) with true. cbn iota.
  rewrite clear_framebuffer_ok by exact S. cbn [bind].
  rewrite history_step_idle; try reflexivity.
  - cbn [bind]. change (IsMouseButtonDown_LEFT (event PressC w h m)) with false.
    change (IsMouseButtonDown_RIGHT (event PressC w h m)) with false.
    cbn [orb]. eexists. split; [reflexivity|]. cbn [st].
    destruct (pushed _). reflexivity.
  - apply pushed_cursors_ok. destruct S as [C _]. exact C.
  - apply andb_false_r.
  - apply andb_false_r.
  - apply andb_false_r.
Qed.

(** *** Which iterations complete *)





End LoopInvariant.

Section Navigation.

Context `{RL : Raylib}.

Lemma frames_reachable (o : Options) (inputs : list Input) :
  forall l l', reachable o l -> frames o l inputs = Ok l' -> reachable o l'.
Proof.
  induction inputs as [|i rest IH]; intros l l' R H; cbn [frames] in H.
  - injection H as <-. exact R.
  - apply bind_ok in H as (l1 & H1 & H).
    apply (IH l1); [|exact H]. apply (reachable_frame o l i); assumption.
Qed.

Lemma run_reachable (o : Options) (inputs : list Input) (l : Loop) :
  run o inputs = Ok l -> reachable o l.
Proof.
  intros H. unfold run in H. apply bind_ok in H as (l0 & H0 & H).
  apply (frames_reachable o inputs l0); [|exact H].
  apply reachable_startup. exact H0.
Qed.

(** C6.  The distance the loop computes, [(top + size - selected) % size],
    is defined and lies between 0 and [used_size] in the newly allocated log
    and in every state the program reaches from it (after start-up and any
    sequence of iterations, whatever they push, undo, redo, clear or
    discard). *)
Theorem distance_within_used (o : Options) :
  0 < undo_log_size o < 2 ^ 63 ->
  (exists d, log_top_dist (new_log (undo_log_size o)) = Ok d /\
             0 <= d <= used_size (new_log (undo_log_size o))) /\
  (forall l, reachable o l ->
   exists d, log_top_dist (log (st l)) = Ok d /\ 0 <= d <= used_size (log (st l))).
Proof.
  intros Hn. split.
  - exists 0. split; [|cbn; lia].
    rewrite log_top_dist_ok by (apply new_log_slots_ok; exact Hn).
    unfold dist. cbn [new_log size top selected].
    replace (0 + undo_log_size o - 0) with (1 * undo_log_size o) by lia.
    rewrite Z.mod_mul by lia. reflexivity.
  - intros l R. pose proof (reachable_log_ok o l Hn R) as [[C L] Hne Hd].
    exists (dist (log (st l))). split.
    + apply log_top_dist_ok. exact C.
    + pose proof (dist_range _ C). lia.
Qed.

(** C5.  In a reachable state, an iteration whose only request is undo
    while [dist = used_size], or whose only request is redo while
    [dist <= 1], completes without fault and leaves the log (images,
    cursors, [used_size]), the canvas and the released images unchanged. *)
Theorem navigation_guards_are_no_ops (o : Options) (l : Loop) (i : Input) :
  0 < undo_log_size o < 2 ^ 63 ->
  reachable o l ->
  (only_undo i = true /\ dist (log (st l)) = used_size (log (st l))) \/
  (only_redo i = true /\ dist (log (st l)) <= 1) ->
  exists l', frame o l i = Ok l' /\ st l' = st l.
Proof.
  intros Hn R Hreq. pose proof (reachable_log_ok o l Hn R) as [[C L] Hne Hd].
  assert (IsKeyPressed_C i = false /\ IsMouseButtonDown_LEFT i = false /\
          IsMouseButtonDown_RIGHT i = false /\ history_step (st l) i = Ok (st l))
    as (Hc & Hl & Hr & Hh).
  { unfold only_undo, only_redo in Hreq.
    destruct Hreq as [[Hi Hd']|[Hi Hd']]; requests Hi;
      (repeat split; [.. | apply history_step_idle; [exact C | ..]]);
      use_requests; try reflexivity; try apply andb_false_r.
    - rewrite Hd', Z.ltb_irrefl. reflexivity.
    - destruct (Z.ltb_spec 1 (dist (log (st l)))); [lia | reflexivity]. }
  unfold frame. cbn zeta. rewrite Hc. cbn [bind]. rewrite Hh. cbn [bind].
  rewrite Hl, Hr. cbn [orb].
  eexists. split; [reflexivity|]. cbn [st]. destruct (st l). reflexivity.
Qed.


End Navigation.

Section Viewport.

Context `{RL : Raylib}.

Lemma frame_target (o : Options) (l l' : Loop) (i : Input) :
  frame o l i = Ok l' -> (target_x l', target_y l') = camera_target o l i.
Proof.
  intros H. unfold frame in H. cbn zeta in H.
  apply bind_ok in H as (s1 & _ & H). apply bind_ok in H as (s2 & _ & H).
  injection H as <-. cbn [target_x target_y].
  destruct (camera_target o l i). reflexivity.
Qed.

Lemma clamp_target_bounds (canvas_dim w t : Z) :
  0 <= w ÷ 2 <= int_of_ulong canvas_dim - w ÷ 2 ->
  w ÷ 2 <= clamp_target canvas_dim w t <= int_of_ulong canvas_dim - w ÷ 2.
Proof.
  intros H. unfold clamp_target, CLAMP, MIN, MAX.
  repeat match goal with
         | |- context [?a >? ?b] => destruct (Z.gtb_spec a b)
         | |- context [?a <? ?b] => destruct (Z.ltb_spec a b)
         end; lia.
Qed.

(** A window wider than twice what the canvas leaves: the lower bound is
    above the upper bound and the clamp yields the upper bound. *)
Lemma clamp_target_oversized (canvas_dim w t : Z) :
  MAX 0 (int_of_ulong canvas_dim - w ÷ 2) < w ÷ 2 ->
  clamp_target canvas_dim w t = MAX 0 (int_of_ulong canvas_dim - w ÷ 2).
Proof.
  unfold clamp_target, CLAMP, MIN, MAX.
  repeat match goal with
         | |- context [?a >? ?b] => destruct (Z.gtb_spec a b)
         | |- context [?a <? ?b] => destruct (Z.ltb_spec a b)
         end; lia.
Qed.

(** C7 (as the code has it).  For a 2560x1440 canvas: in an 800x600 window,
    an iteration that pans (middle button down), however far the mouse
    moved, leaves the target with [tx] in [400, 2160] and [ty] in
    [300, 1140]; in an iteration that reports a resize to 3000x2000 the
    target becomes [max(0, canvas_dim - window_dim/2)] on each axis, that is
    (1060, 440). *)
Theorem viewport_clamp (o : Options) (l : Loop) (i : Input) :
  canvas_width o = 2560 -> canvas_height o = 1440 ->
  (GetScreenWidth i = 800 -> GetScreenHeight i = 600 ->
   IsMouseButtonDown_MIDDLE i = true ->
   400 <= fst (camera_target o l i) <= 2160 /\
   300 <= snd (camera_target o l i) <= 1140) /\
  (GetScreenWidth i = 3000 -> GetScreenHeight i = 2000 ->
   IsWindowResized i = true ->
   camera_target o l i = (1060, 440)).
Proof.
  intros Hw Hh. split.
  - intros Ew Eh Hm. unfold camera_target. rewrite Hw, Hh, Ew, Eh, Hm.
    pose proof (fun t => clamp_target_bounds 2560 800 t ltac:(vm_compute; split; discriminate)) as Bx.
    pose proof (fun t => clamp_target_bounds 1440 600 t ltac:(vm_compute; split; discriminate)) as By.
    change (800 ÷ 2) with 400 in Bx. change (600 ÷ 2) with 300 in By.
    change (int_of_ulong 2560 - 400) with 2160 in Bx.
    change (int_of_ulong 1440 - 300) with 1140 in By.
    destruct (IsWindowResized i); cbn [fst snd]; split; auto.
  - intros Ew Eh Hr. unfold camera_target. rewrite Hw, Hh, Ew, Eh, Hr.
    rewrite (clamp_target_oversized 2560 3000) by (vm_compute; reflexivity).
    rewrite (clamp_target_oversized 1440 2000) by (vm_compute; reflexivity).
    reflexivity.
Qed.

End Viewport.

Module ViewportExamples.
Import IntRaster.

(** C7, as stated, fails: after a resize to 3000x2000 the target is not the
    middle of the 2560x1440 canvas, (1280, 720), on either axis. *)
Lemma viewport_resize_counterexample :
  let l := started3 in
  let i := at_size Resize 3000 2000 0 0 in
  camera_target default_options l i = (1060, 440) /\
  fst (camera_target default_options l i) <> canvas_width default_options / 2 /\
  snd (camera_target default_options l i) <> canvas_height default_options / 2.
Proof. vm_compute. repeat split; discriminate. Qed.

Lemma viewport_clamp_witness :
  let l := started3 in
  (400 <= fst (camera_target default_options l
                 (at_size HoldMiddle 800 600 5000 5000)) <= 2160 /\
   300 <= snd (camera_target default_options l
                 (at_size HoldMiddle 800 600 5000 5000)) <= 1140) /\
  camera_target default_options l (at_size Resize 3000 2000 0 0) = (1060, 440).
Proof.
  split.
  - apply (viewport_clamp (RL := raylib) default_options started3
             (at_size HoldMiddle 800 600 5000 5000)); reflexivity.
  - apply (viewport_clamp (RL := raylib) default_options started3
             (at_size Resize 3000 2000 0 0)); reflexivity.
Defined.

End ViewportExamples.

Section Capacity.

Context `{RL : Raylib}.


End Capacity.

Section RoundTrip.

Context `{RL : Raylib} `{RT : !RaylibRoundTrip RL}.

Lemma copied_framebuffer (s : State) (i : Z) (fb : Texture) :
  slot (log s) i = Some (Some (LoadImageFromTexture fb)) ->
  framebuffer (copied i s) = fb.
Proof.
  intros E. unfold copied. cbn [framebuffer].
  rewrite (content_loaded _ _ _ E). apply round_trip.
Qed.

(** C4 (as the code has it).  In a reachable state of a log with at least
    two slots: after [undo_log_push] of canvas [A] and [undo_log_push] of
    canvas [B], an iteration that requests undo makes the canvas [A]; and
    when the log has at least three slots, a following iteration that
    requests redo makes the canvas [B].  (raylib's read-back and flipped
    draw are assumed to restore the pixels read.) *)
Theorem undo_redo_round_trip (o : Options) (l : Loop) (A B : Texture)
    (undo redo : Input) :
  0 < undo_log_size o < 2 ^ 63 ->
  reachable o l ->
  only_undo undo = true -> only_redo redo = true ->
  2 <= size (log (st l)) ->
  exists s1 s2 s3,
    undo_log_push (with_framebuffer A (st l)) = Ok s1 /\
    undo_log_push (with_framebuffer B s1) = Ok s2 /\
    history_step s2 undo = Ok s3 /\
    framebuffer s3 = A /\
    (3 <= size (log (st l)) ->
     exists s4, history_step s3 redo = Ok s4 /\ framebuffer s4 = B).
Proof.
  intros Hn R Hu Hr H2.
  pose proof (reachable_log_ok o l Hn R) as [S0 Hne0 Hd0].
  set (s0 := with_framebuffer A (st l)).
  assert (slots_ok (log s0)) as S0' by exact S0.
  pose proof S0 as [C0 L0]. pose proof C0 as [Hs Hlen Ht Hsel Hused].
  set (s1 := pushed s0).
  pose proof (pushed_log_ok s0 S0') as Hok1. fold s1 in Hok1.
  pose proof Hok1 as [S1 Hne1 Hd1]. pose proof S1 as [C1 L1].
  set (s1' := with_framebuffer B s1).
  assert (slots_ok (log s1')) as S1' by exact S1.
  set (s2 := pushed s1').
  pose proof (pushed_log_ok s1' S1') as Hok2. fold s2 in Hok2.
  pose proof Hok2 as [[C2 L2] Hne2 Hd2].
  (* the cursors after the two pushes *)
  assert (size (log s2) = size (log (st l))) as Esz by reflexivity.
  assert (top (log s1) = (top (log (st l)) + 1) mod size (log (st l))) as Et1
    by reflexivity.
  assert (selected (log s2) = top (log s1)) as Esel2 by reflexivity.
  assert (top (log s2) = (top (log s1) + 1) mod size (log (st l))) as Et2
    by reflexivity.
  assert (2 <= used_size (log s2)) as Hu2.
  { cbn [s2 s1' s1 s0 pushed with_framebuffer log used_size size]. lia. }
  assert (dist (log s2) = 1) as Ed2.
  { unfold dist. rewrite Esz, Esel2, Et2, Et1. window; lia. }
  assert ((selected (log s2) + size (log s2) - 1) mod size (log s2)
          = top (log (st l))) as Eprev.
  { rewrite Esz, Esel2, Et1. window; lia. }
  assert (slot (log s2) (top (log (st l))) = Some (Some (LoadImageFromTexture A)))
    as EA.
  { unfold s2. rewrite slot_pushed by (assumption || lia).
    destruct (Z.eqb_spec (top (log (st l))) (top (log s1'))) as [E|NE].
    - exfalso. change (top (log s1')) with (top (log s1)) in E.
      rewrite Et1 in E. revert E. window; lia.
    - change (log s1') with (log s1). unfold s1.
      rewrite slot_pushed by (assumption || lia).
      change (top (log s0)) with (top (log (st l))).
      rewrite Z.eqb_refl. reflexivity. }
  assert (slot (log s2) (top (log s1)) = Some (Some (LoadImageFromTexture B)))
    as EB.
  { unfold s2. rewrite slot_pushed by (assumption || (destruct C1; lia)).
    change (top (log s1')) with (top (log s1)). rewrite Z.eqb_refl. reflexivity. }
  exists s1, s2, (copied (top (log (st l))) s2).
  split; [apply undo_log_push_ok; exact S0'|].
  split; [apply undo_log_push_ok; exact S1'|].
  split; [rewrite <- Eprev; apply history_step_undo; [assumption..|lia]|].
  split; [apply copied_framebuffer; exact EA|].
  intros H3.
  set (s3 := copied (top (log (st l))) s2).
  assert (log_ok (log s3)) as Hok3.
  { unfold s3. rewrite <- Eprev. apply copied_prev_log_ok; [assumption | lia]. }
  assert (dist (log s3) = 2) as Ed3.
  { unfold dist. cbn [s3 copied log size top selected].
    rewrite Esz, Et2, Et1. window; lia. }
  assert ((selected (log s3) + 1) mod size (log s3) = top (log s1)) as Enext.
  { cbn [s3 copied log size selected]. rewrite Esz, Et1. reflexivity. }
  exists (copied (top (log s1)) s3). split.
  - rewrite <- Enext. apply history_step_redo; [assumption..|lia].
  - apply copied_framebuffer. exact EB.
Qed.

End RoundTrip.

Section Clear.

Context `{RL : Raylib}.

(** C1 (as the code has it).  In a reachable state with [dist > 1], an
    iteration in which Clear is pressed pushes the blank canvas at [top]
    and discards nothing on the way: every slot other than [top] keeps its
    content, in particular the entries between [selected] and [top]; the
    only image released is the one the push overwrites when the log is
    full; [used_size] grows by one up to [size].  The entry that was newest
    before the Clear is what the next undo puts on the canvas. *)
Theorem clear_pushes_without_discarding (o : Options) (l : Loop)
    (w h : Z) (m : Vector2) :
  0 < undo_log_size o < 2 ^ 63 ->
  reachable o l ->
  1 < dist (log (st l)) ->
  let blank := ClearBackground (GetColor (background_hexcolor o))
                 (framebuffer (st l)) in
  let l0 := log (st l) in
  exists l1,
    frame o l (event PressC w h m) = Ok l1 /\
    framebuffer (st l1) = blank /\
    selected (log (st l1)) = top l0 /\
    top (log (st l1)) = (top l0 + 1) mod size l0 /\
    used_size (log (st l1)) = Z.min (used_size l0 + 1) (size l0) /\
    slot (log (st l1)) (top l0) = Some (Some (LoadImageFromTexture blank)) /\
    (forall j, 0 <= j -> j <> top l0 -> slot (log (st l1)) j = slot l0 j) /\
    unloaded (st l1) =
      (if used_size l0 =? size l0 then content l0 (top l0) else [])
      ++ unloaded (st l) /\
    exists newest l2,
      slot l0 (back l0 0) = Some (Some newest) /\
      frame o l1 (event PressQ w h m) = Ok l2 /\
      selected (log (st l2)) = back l0 0 /\
      framebuffer (st l2) =
        DrawTextureRec_flipped (LoadTextureFromImage newest) blank.
Proof.
  intros Hn R Hd. cbn zeta.
  pose proof (reachable_log_ok o l Hn R) as Hok.
  pose proof Hok as [S Hne Hdu]. pose proof S as [C L].
  pose proof C as [Hs Hlen Ht Hsel Hu].
  pose proof (dist_range _ C) as Hdr.
  destruct (frame_clear o l w h m S) as (l1 & E1 & Est1).
  set (blank := ClearBackground (GetColor (background_hexcolor o))
                  (framebuffer (st l))) in *.
  set (s0 := with_framebuffer blank (st l)) in *.
  assert (slots_ok (log s0)) as S0 by exact S.
  pose proof (pushed_log_ok s0 S0) as Hok1. rewrite <- Est1 in Hok1.
  assert (forall j, 0 <= j ->
            slot (log (st l1)) j =
            if j =? top (log (st l)) then Some (Some (LoadImageFromTexture blank))
            else slot (log (st l)) j) as Eslot.
  { intros j Hj. rewrite Est1. apply (slot_pushed s0); assumption. }
  exists l1. split; [exact E1|].
  split; [rewrite Est1; reflexivity|].
  split; [rewrite Est1; reflexivity|].
  split; [rewrite Est1; reflexivity|].
  split; [rewrite Est1; reflexivity|].
  split; [rewrite Eslot by lia; rewrite Z.eqb_refl; reflexivity|].
  split.
  { intros j Hj NE. rewrite Eslot by exact Hj.
    destruct (Z.eqb_spec j (top (log (st l)))); [contradiction | reflexivity]. }
  split; [rewrite Est1; reflexivity|].
  (* the undo after the Clear *)
  destruct (L 0 ltac:(lia)) as [newest Hnewest].
  assert (back (log (st l)) 0 <> top (log (st l))) as Hback.
  { unfold back, dist in *. window; lia. }
  pose proof (back_range _ 0 C) as Hbr.
  assert (dist (log (st l1)) = 1) as Ed1.
  { rewrite Est1. unfold dist. cbn [pushed s0 with_framebuffer log size top selected].
    unfold dist in *. window; lia. }
  assert (1 < used_size (log (st l1))) as Hu1.
  { rewrite Est1. cbn [pushed s0 with_framebuffer log used_size size].
    unfold dist in *. lia. }
  assert ((selected (log (st l1)) + size (log (st l1)) - 1) mod size (log (st l1))
          = back (log (st l)) 0) as Eprev.
  { rewrite Est1. cbn [pushed s0 with_framebuffer log size selected].
    unfold back. f_equal. lia. }
  destruct (frame_quiet o l1 (event PressQ w h m)
              (copied (back (log (st l)) 0) (st l1)))
    as (l2 & E2 & Est2); try reflexivity.
  { rewrite <- Eprev. apply history_step_undo; [exact Hok1 | reflexivity | lia]. }
  exists newest, l2. split; [exact Hnewest|]. split; [exact E2|].
  rewrite Est2. split; [reflexivity|].
  unfold copied. cbn [framebuffer]. unfold content.
  rewrite Eslot by lia.
  destruct (Z.eqb_spec (back (log (st l)) 0) (top (log (st l)))); [contradiction|].
  rewrite Hnewest. rewrite Est1. reflexivity.
Qed.

End Clear.

Section Divergence.

Context `{RL : Raylib}.

(** Without Clear, an iteration does to the log what [history_step] does;
    painting only changes the canvas. *)
Lemma frame_history (o : Options) (l : Loop) (i : Input) (s' : State) :
  IsKeyPressed_C i = false ->
  history_step (st l) i = Ok s' ->
  exists l', frame o l i = Ok l' /\
             log (st l') = log s' /\ unloaded (st l') = unloaded s'.
Proof.
  intros Hc Hh. unfold frame. cbn zeta.
  rewrite Hc. cbn [bind]. rewrite Hh. cbn [bind].
  eexists. split; [reflexivity|]. split; reflexivity.
Qed.

Lemma history_step_press (s : State) (i : Input) :
  log_ok (log s) -> only_press i = true -> 2 <= dist (log s) ->
  history_step s i = Ok (cleared_to_top (dist (log s)) s).
Proof.
  intros Hok Hi H2. pose proof Hok as [[C L] Hne Hd].
  unfold history_step. rewrite log_top_dist_ok by exact C. cbn [bind].
  assert ((1 <? dist (log s)) = true) as Eg by (apply Z.ltb_lt; lia).
  rewrite Eg. unfold only_press in Hi. requests Hi. use_requests.
  rewrite clear_selected_to_top_ok by assumption. cbn [bind orb].
  rewrite andb_false_r. reflexivity.
Qed.

Lemma history_step_release (s : State) (i : Input) :
  log_ok (log s) -> only_release i = true -> dist (log s) <= 1 ->
  history_step s i = Ok (pushed s).
Proof.
  intros Hok Hi H1. pose proof Hok as [[C L] Hne Hd].
  unfold history_step. rewrite log_top_dist_ok by exact C. cbn [bind].
  assert ((1 <? dist (log s)) = false) as Eg by (apply Z.ltb_ge; lia).
  rewrite Eg. unfold only_release in Hi. requests Hi. use_requests.
  cbn [bind orb]. rewrite andb_false_r.
  apply undo_log_push_ok. split; assumption.
Qed.

(** [k] undos in a row, while older entries exist and the distance stays
    below [size]. *)
Lemma undo_steps (o : Options) (undo : Input) (k : nat) :
  forall l,
  log_ok (log (st l)) -> only_undo undo = true ->
  dist (log (st l)) + Z.of_nat k <= used_size (log (st l)) ->
  dist (log (st l)) + Z.of_nat k < size (log (st l)) ->
  exists l',
    frames o l (replicate k undo) = Ok l' /\
    log_ok (log (st l')) /\
    dist (log (st l')) = dist (log (st l)) + Z.of_nat k /\
    used_size (log (st l')) = used_size (log (st l)) /\
    size (log (st l')) = size (log (st l)) /\
    top (log (st l')) = top (log (st l)) /\
    images (log (st l')) = images (log (st l)) /\
    unloaded (st l') = unloaded (st l).
Proof.
  induction k as [|k IH]; intros l Hok Hu Hused Hsize.
  - exists l. cbn [replicate frames]. split; [reflexivity|]. split; [exact Hok|].
    split; [lia|]. repeat split.
  - cbn [replicate frames].
    pose proof Hok as [[C L] Hne Hd]. pose proof C as [Hs Hlen Ht Hsel Husd].
    pose proof (dist_range _ C) as Hdr.
    destruct (frame_quiet o l undo
                (copied ((selected (log (st l)) + size (log (st l)) - 1)
                           mod size (log (st l))) (st l)))
      as (l1 & E1 & Est1).
    + unfold only_undo in Hu. requests Hu. assumption.
    + unfold only_undo in Hu. requests Hu. assumption.
    + unfold only_undo in Hu. requests Hu. assumption.
    + apply history_step_undo; [assumption.. | lia].
    + rewrite E1. cbn [bind].
      assert (dist (log (st l1)) = dist (log (st l)) + 1) as Ed1.
      { rewrite Est1. unfold dist in *.
        cbn [copied log images size used_size top selected]. window; lia. }
      destruct (IH l1) as (l' & E & Hok' & Ed & Eu & Es & Et & Ei & Eun).
      * rewrite Est1. apply copied_prev_log_ok; [assumption | lia].
      * exact Hu.
      * rewrite Ed1, Est1. cbn [copied log used_size]. lia.
      * rewrite Ed1, Est1. cbn [copied log size]. lia.
      * exists l'. split; [exact E|]. split; [exact Hok'|].
        rewrite Ed, Eu, Es, Et, Ei, Eun, Ed1, Est1.
        cbn [copied log images size used_size top unloaded].
        repeat split. lia.
Qed.

(** Where the code does what C2 says: from the tip, [k] undos
    ([0 < k < used_size]) and then a stroke (press, release), as long as the
    distance [k + 1] stays below [size].  The entries between [selected]
    and [top] are unloaded, [used_size] is the old one minus [k] plus one,
    and the distance is 1 again.  (At [k + 1 = size] the distance the loop
    computes is 0 and nothing is cleared.) *)
Lemma divergence_pruning_below_capacity (o : Options) (l : Loop) (k : nat)
    (undo press release : Input) :
  0 < undo_log_size o < 2 ^ 63 ->
  reachable o l ->
  dist (log (st l)) = 1 ->
  0 < Z.of_nat k < used_size (log (st l)) ->
  Z.of_nat k + 1 < size (log (st l)) ->
  only_undo undo = true -> only_press press = true -> only_release release = true ->
  exists l',
    frames o l (replicate k undo ++ [press; release]) = Ok l' /\
    used_size (log (st l')) = used_size (log (st l)) - Z.of_nat k + 1 /\
    dist (log (st l')) = 1 /\
    log_top_dist (log (st l')) = Ok 1.
Proof.
  intros Hn R Hd Hk Hsz Hu Hp Hr.
  pose proof (reachable_log_ok o l Hn R) as Hok.
  destruct (undo_steps o undo k l Hok Hu ltac:(lia) ltac:(lia))
    as (l1 & E1 & Hok1 & Ed1 & Eu1 & Es1 & Et1 & Ei1 & Eun1).
  (* the press *)
  destruct (frame_history o l1 press (cleared_to_top (dist (log (st l1))) (st l1)))
    as (l2 & E2 & El2 & _).
  { unfold only_press in Hp. requests Hp. assumption. }
  { apply history_step_press; [assumption.. | lia]. }
  assert (log_ok (log (st l2))) as Hok2.
  { rewrite El2. apply cleared_to_top_log_ok; [assumption | lia]. }
  pose proof Hok1 as [[C1 L1] Hne1 Hdu1]. pose proof C1 as [Hs Hlen Ht Hsel Husd].
  assert (dist (log (st l2)) = 1) as Ed2.
  { rewrite El2. unfold dist in *.
    cbn [cleared_to_top log images size used_size top selected]. window; lia. }
  (* the release *)
  destruct (frame_history o l2 release (pushed (st l2))) as (l3 & E3 & El3 & _).
  { unfold only_release in Hr. requests Hr. assumption. }
  { apply history_step_release; [assumption.. | lia]. }
  assert (log_ok (log (st l3))) as Hok3.
  { rewrite El3. apply pushed_log_ok. destruct Hok2 as [S2 _ _]. exact S2. }
  assert (dist (log (st l3)) = 1) as Ed3.
  { rewrite El3. unfold dist. cbn [pushed log size top selected].
    rewrite El2. cbn [cleared_to_top log size top selected]. window; lia. }
  exists l3. split.
  { clear - E1 E2 E3. revert l E1.
    induction (replicate k undo) as [|i rest IH]; intros l E1; cbn [app frames] in *.
    - injection E1 as ->. rewrite E2. cbn [bind]. rewrite E3. reflexivity.
    - destruct (frame o l i) as [l0|f]; cbn [bind] in *; [|discriminate].
      apply IH. exact E1. }
  split.
  { rewrite El3. cbn [pushed log used_size size]. rewrite El2.
    cbn [cleared_to_top log used_size size]. lia. }
  split; [exact Ed3|].
  rewrite log_top_dist_ok by (destruct Hok3 as [[C3 _] _ _]; exact C3).
  rewrite Ed3. reflexivity.
Qed.

End Divergence.

Section Ring.

Context `{RL : Raylib}.

Lemma push_canvases_snoc (fbs : list Texture) (fb : Texture) :
  forall s, push_canvases (fbs ++ [fb]) s =
            (s' <- push_canvases fbs s ;; undo_log_push (with_framebuffer fb s')).
Proof.
  induction fbs as [|fb0 fbs IH]; intros s; cbn [push_canvases app bind].
  - destruct (undo_log_push (with_framebuffer fb s)); reflexivity.
  - destruct (undo_log_push (with_framebuffer fb0 s)) as [s1|f]; cbn [bind];
      [apply IH | reflexivity].
Qed.

Lemma mod_shift (a b n : Z) : 0 < n -> (a mod n + (n + b)) mod n = (a + b) mod n.
Proof.
  intros Hn. rewrite Zplus_mod_idemp_l.
  replace (a + (n + b)) with (a + b + 1 * n) by lia.
  apply Z.mod_add. lia.
Qed.

Lemma ring_holds_back (n : Z) (fbs : list Texture) (s : State) (k : Z) :
  ring_holds n fbs s -> 0 <= k < used_size (log s) ->
  exists (j : nat) (fb : Texture),
    Z.of_nat j = Z.of_nat (length fbs) - 1 - k /\
    fbs !! j = Some fb /\
    back (log s) k = Z.of_nat j mod n /\
    slot (log s) (back (log s) k) = snapshot fb.
Proof.
  intros [C Es Et Eu Hsl _] Hk. pose proof C as [Hs Hlen Ht Hsel Hu].
  set (j := Z.to_nat (Z.of_nat (length fbs) - 1 - k)).
  assert (Z.of_nat j = Z.of_nat (length fbs) - 1 - k) as Ej by (unfold j; lia).
  destruct (lookup_lt_is_Some_2 fbs j ltac:(lia)) as [fb Hfb].
  assert (back (log s) k = Z.of_nat j mod n) as Eb.
  { unfold back. rewrite Et, Es.
    replace (Z.of_nat (length fbs) mod n + n - 1 - k)
      with (Z.of_nat (length fbs) mod n + (n + (- 1 - k))) by lia.
    rewrite mod_shift by lia. f_equal. lia. }
  exists j, fb. repeat split; try assumption.
  rewrite Eb. apply Hsl; [lia | exact Hfb].
Qed.

Lemma ring_holds_slots_ok (n : Z) (fbs : list Texture) (s : State) :
  ring_holds n fbs s -> slots_ok (log s).
Proof.
  intros R. split; [apply (ring_cursors _ _ _ R)|].
  intros k Hk. destruct (ring_holds_back n fbs s k R Hk) as (j & fb & _ & _ & _ & E).
  eexists. exact E.
Qed.

Lemma ring_holds_new (n : Z) (fb0 : Texture) :
  0 < n < 2 ^ 63 ->
  ring_holds n [] {| log := new_log n; framebuffer := fb0; unloaded := [] |}.
Proof.
  intros Hn. split; cbn [log unloaded new_log size top used_size length].
  - apply new_log_slots_ok. exact Hn.
  - reflexivity.
  - rewrite Z.mod_0_l by lia. reflexivity.
  - lia.
  - intros j fb _ H. discriminate.
  - reflexivity.
Qed.

Lemma ring_holds_pushed (n : Z) (fbs : list Texture) (s : State) (fb : Texture) :
  ring_holds n fbs s ->
  ring_holds n (fbs ++ [fb]) (pushed (with_framebuffer fb s)).
Proof.
  intros R. pose proof (ring_holds_slots_ok _ _ _ R) as Hslots.
  pose proof R as [C Es Et Eu Hsl Hun]. pose proof C as [Hs Hlen Ht Hsel Hu].
  assert (Z.of_nat (length (fbs ++ [fb])) = Z.of_nat (length fbs) + 1) as Elen.
  { rewrite length_app. cbn [length]. lia. }
  split.
  - apply pushed_cursors_ok. exact C.
  - exact Es.
  - cbn [pushed with_framebuffer log top size]. rewrite Et, Es, Elen.
    rewrite Zplus_mod_idemp_l. reflexivity.
  - cbn [pushed with_framebuffer log used_size size]. rewrite Eu, Es, Elen. lia.
  - intros j x Hj Hx. rewrite Elen in Hj.
    assert (0 <= Z.of_nat j mod n < n) as Hjm by (apply Z.mod_pos_bound; lia).
    rewrite slot_pushed by (try exact C; lia).
    cbn [with_framebuffer log framebuffer].
    apply lookup_snoc_Some in Hx as [[Hlt Hx]|[-> <-]].
    + destruct (Z.eqb_spec (Z.of_nat j mod n) (top (log s))) as [E|NE].
      * exfalso. rewrite Et in E.
        apply mod_inj_window in E; lia.
      * apply Hsl; [lia | exact Hx].
    + rewrite Et, Z.eqb_refl. reflexivity.
  - cbn [pushed with_framebuffer log unloaded]. rewrite Hun.
    destruct (Z.eqb_spec (used_size (log s)) (size (log s))) as [Efull|Efree].
    + (* full: the slot under [top] holds the push made [n] pushes ago *)
      destruct (ring_holds_back n fbs s (n - 1) R ltac:(lia))
        as (j & x & Ej & Hx & Eb & Eslot).
      assert (back (log s) (n - 1) = top (log s)) as Ebt.
      { unfold back. rewrite Es.
        replace (top (log s) + n - 1 - (n - 1)) with (top (log s)) by lia.
        apply Z.mod_small. lia. }
      rewrite Ebt in Eslot. rewrite (content_loaded _ _ _ Eslot).
      assert ((length (fbs ++ [fb]) - Z.to_nat n)%nat = S j) as -> by lia.
      assert ((length fbs - Z.to_nat n)%nat = j) as -> by lia.
      rewrite take_app_le by lia.
      rewrite (take_S_r _ _ _ Hx), fmap_app, rev_app_distr. reflexivity.
    + assert ((length (fbs ++ [fb]) - Z.to_nat n)%nat = 0%nat) as -> by lia.
      assert ((length fbs - Z.to_nat n)%nat = 0%nat) as -> by lia.
      reflexivity.
Qed.

Lemma push_canvases_ring (n : Z) (fb0 : Texture) (fbs : list Texture) :
  0 < n < 2 ^ 63 ->
  exists s,
    push_canvases fbs {| log := new_log n; framebuffer := fb0; unloaded := [] |}
      = Ok s /\
    ring_holds n fbs s.
Proof.
  intros Hn. induction fbs as [|fb fbs IH] using rev_ind.
  - eexists. split; [reflexivity|]. apply ring_holds_new. exact Hn.
  - destruct IH as (s & E & R). rewrite push_canvases_snoc, E. cbn [bind].
    exists (pushed (with_framebuffer fb s)). split.
    + apply undo_log_push_ok. exact (ring_holds_slots_ok n fbs s R).
    + apply ring_holds_pushed. exact R.
Qed.

Lemma ring_holds_stored (n : Z) (fbs : list Texture) (s : State) :
  ring_holds n fbs s ->
  stored (log s) = snapshot <$> drop (length fbs - Z.to_nat n) fbs.
Proof.
  intros R. pose proof R as [C Es Et Eu Hsl Hun]. pose proof C as [Hs Hlen Ht Hsel Hu].
  apply list_eq. intros i. unfold stored.
  rewrite !list_lookup_fmap, lookup_drop.
  destruct (Z.lt_ge_cases (Z.of_nat i) (used_size (log s))) as [Hi|Hi].
  - rewrite lookup_seqZ_lt by exact Hi. cbn [fmap option_fmap option_map].
    destruct (ring_holds_back n fbs s (used_size (log s) - 1 - (0 + Z.of_nat i)) R
                ltac:(lia)) as (j & fb & Ej & Hfb & _ & Eslot).
    rewrite Eslot.
    assert ((length fbs - Z.to_nat n + i)%nat = j) as -> by lia.
    rewrite Hfb. reflexivity.
  - rewrite lookup_seqZ_ge by exact Hi.
    assert (fbs !! (length fbs - Z.to_nat n + i)%nat = None) as ->
      by (apply lookup_ge_None; lia).
    reflexivity.
Qed.

(** C3.  Whatever canvases are pushed, one after the other, into a new log
    of [n > 0] slots: every push succeeds; [used_size] is the number of
    pushes up to [n] and so never exceeds the capacity; the log stores, in
    the order they were pushed, exactly the last [n] canvases; the images
    released so far are the earlier pushes, in the order they were pushed;
    and a push into the full log releases the oldest stored image (the head
    of the stored ones) before the slot is written. *)
Theorem ring_capacity_and_eviction (n : Z) (fb0 : Texture) (fbs : list Texture) :
  0 < n < 2 ^ 63 ->
  exists s,
    push_canvases fbs {| log := new_log n; framebuffer := fb0; unloaded := [] |}
      = Ok s /\
    size (log s) = n /\
    used_size (log s) = Z.min (Z.of_nat (length fbs)) n /\
    used_size (log s) <= size (log s) /\
    stored (log s) = snapshot <$> drop (length fbs - Z.to_nat n) fbs /\
    unloaded s = rev (LoadImageFromTexture <$> take (length fbs - Z.to_nat n) fbs) /\
    (used_size (log s) = size (log s) ->
     forall fb, exists oldest s',
       head (stored (log s)) = Some (Some (Some oldest)) /\
       undo_log_push (with_framebuffer fb s) = Ok s' /\
       unloaded s' = oldest :: unloaded s /\
       stored (log s') = tail (stored (log s)) ++ [snapshot fb]).
Proof.
  intros Hn. destruct (push_canvases_ring n fb0 fbs Hn) as (s & E & R).
  pose proof R as [C Es Et Eu Hsl Hun]. pose proof C as [Hs Hlen Ht Hsel Hu].
  exists s. split; [exact E|]. split; [exact Es|]. split; [exact Eu|].
  split; [lia|]. split; [apply ring_holds_stored; exact R|].
  split; [exact Hun|].
  intros Hfull fb.
  pose proof (ring_holds_pushed n fbs s fb R) as R'.
  destruct (ring_holds_back n fbs s (n - 1) R ltac:(lia))
    as (j & x & Ej & Hx & Eb & Eslot).
  assert ((length fbs - Z.to_nat n)%nat = j) as Ed by lia.
  exists (LoadImageFromTexture x), (pushed (with_framebuffer fb s)).
  split.
  { rewrite (ring_holds_stored n fbs s R), Ed.
    rewrite (drop_S _ _ _ Hx). reflexivity. }
  split; [apply undo_log_push_ok; exact (ring_holds_slots_ok n fbs s R)|].
  split.
  { rewrite (ring_unloaded _ _ _ R'), Hun.
    assert ((length (fbs ++ [fb]) - Z.to_nat n)%nat = S j) as ->
      by (rewrite length_app; cbn [length]; lia).
    rewrite Ed, take_app_le by lia.
    rewrite (take_S_r _ _ _ Hx), fmap_app, rev_app_distr. reflexivity. }
  rewrite (ring_holds_stored _ _ _ R'), (ring_holds_stored _ _ _ R), Ed.
  assert ((length (fbs ++ [fb]) - Z.to_nat n)%nat = S j) as ->
    by (rewrite length_app; cbn [length]; lia).
  rewrite (drop_S _ _ _ Hx). cbn [fmap list_fmap tail].
  rewrite drop_app_le by lia. rewrite fmap_app. reflexivity.
Qed.

End Ring.

(** * The model run on concrete inputs *)

(** Equalities between closed terms, by evaluation in the virtual machine. *)
Ltac vm_refl :=
  lazymatch goal with
  | |- @eq ?T ?a ?b => vm_cast_no_check (@eq_refl T b)
  | |- _ => vm_compute; reflexivity
  end.

Module Examples.
Import IntRaster.

#[export] Instance int_raster_round_trip : RaylibRoundTrip raylib.
Proof. intros fb fb'. apply rev_involutive. Qed.

Lemma started3_reachable : reachable (tiny 3) started3.
Proof. apply (run_reachable (tiny 3) []). vm_refl. Qed.

Lemma browsing4_reachable : reachable (tiny 4) browsing4.
Proof. apply (run_reachable (tiny 4) browse4). vm_refl. Qed.

Lemma distance_within_used_witness :
  exists d, log_top_dist (log (st browsing4)) = Ok d
            /\ 0 <= d <= used_size (log (st browsing4)).
Proof.
  apply (distance_within_used (tiny 4)).
  - vm_compute. split; reflexivity.
  - apply (run_reachable (tiny 4) browse4). vm_refl.
Defined.

Lemma navigation_guards_are_no_ops_witness :
  (exists l', frame (tiny 3) started3 (on PressQ) = Ok l' /\ st l' = st started3) /\
  (exists l', frame (tiny 3) started3 (on PressW) = Ok l' /\ st l' = st started3).
Proof.
  split.
  - apply (navigation_guards_are_no_ops (tiny 3) started3 (on PressQ)).
    + vm_compute. split; reflexivity.
    + apply (run_reachable (tiny 3) []). vm_refl.
    + left. split; vm_refl.
  - apply (navigation_guards_are_no_ops (tiny 3) started3 (on PressW)).
    + vm_compute. split; reflexivity.
    + apply (run_reachable (tiny 3) []). vm_refl.
    + right. split; [vm_refl | vm_compute; discriminate].
Defined.



(** C1, as stated, fails.  Four slots; the initial canvas is selected and
    the two strokes lie between [selected] and [top] ([dist] is 3).  Clear
    releases nothing and leaves both strokes stored, [used_size] becomes 4
    (discarding them first would give 3 - 2 + 1 = 2), and the next undo puts
    the second stroke, an entry of the abandoned branch, on the canvas. *)
Lemma clear_keeps_future_counterexample :
  run (tiny 4) browse4 = Ok browsing4 /\
  selected (log (st browsing4)) = 0 /\ top (log (st browsing4)) = 3 /\
  used_size (log (st browsing4)) = 3 /\ dist (log (st browsing4)) = 3 /\
  frame (tiny 4) browsing4 (on PressC) = Ok cleared4 /\
  unloaded (st cleared4) = unloaded (st browsing4) /\
  slot (log (st cleared4)) 1 = Some (Some [[1; 1]]) /\
  slot (log (st cleared4)) 2 = Some (Some [[2; 2]]) /\
  used_size (log (st cleared4)) = 4 /\
  used_size (log (st cleared4)) <>
    used_size (log (st browsing4)) - (dist (log (st browsing4)) - 1) + 1 /\
  frame (tiny 4) cleared4 (on PressQ) = Ok cleared4_undone /\
  framebuffer (st cleared4_undone) = [[2; 2]].
Proof.
  repeat (split; [vm_refl|]).
  split; [vm_compute; discriminate|].
  split; vm_refl.
Qed.

Lemma clear_pushes_without_discarding_witness :
  exists l1, frame (tiny 4) browsing4 (on PressC) = Ok l1 /\
             used_size (log (st l1)) = 4 /\
             slot (log (st l1)) 2 = slot (log (st browsing4)) 2.
Proof.
  destruct (clear_pushes_without_discarding (tiny 4) browsing4 2 1 (0, 0))
    as (l1 & E & _ & _ & _ & Eu & _ & Ekeep & _).
  - vm_compute. split; reflexivity.
  - apply (run_reachable (tiny 4) browse4). vm_refl.
  - vm_refl.
  - exists l1. split; [exact E|]. split; [exact Eu|].
    apply Ekeep; [vm_compute; discriminate | vm_compute; discriminate].
Defined.

(** C2 fails on the code at capacity.  Three slots, all used, the tip
    selected; undo twice (k = 2 < 3) and commit a stroke.  The distance
    computed before the stroke is 3 mod 3 = 0, so nothing is cleared:
    [used_size] stays 3 instead of 3 - 2 + 1 = 2, the only image released is
    the overwritten oldest one, and the next undo puts the second stroke,
    which lies in the abandoned branch, on the canvas. *)
Lemma divergence_at_capacity_keeps_future :
  run (tiny 3) two_strokes = Ok full3 /\
  used_size (log (st full3)) = 3 /\ dist (log (st full3)) = 1 /\
  log_top_dist (log (st (loop_of (run (tiny 3) (two_strokes ++ [on PressQ; on PressQ])))))
    = Ok 0 /\
  run (tiny 3) diverge3 = Ok diverged3 /\
  used_size (log (st diverged3)) = 3 /\
  used_size (log (st diverged3)) <> used_size (log (st full3)) - 2 + 1 /\
  unloaded (st diverged3) = [[[7; 7]]] /\
  slot (log (st diverged3)) 2 = Some (Some [[2; 2]]) /\
  framebuffer (st (loop_of (frame (tiny 3) diverged3 (on PressQ)))) = [[2; 2]].
Proof.
  repeat (split; [vm_refl|]).
  split; [vm_compute; discriminate|].
  repeat (split; [vm_refl|]).
  vm_refl.
Qed.

(** C4, as stated, fails.  With one slot, pushing [B] overwrites [A]; the
    undo is let through ([dist] is 0 and [used_size] is 1) and copies the
    only entry: the canvas is [B]. *)
Lemma undo_round_trip_counterexample :
  let A := [[1; 1]] in
  let B := [[2; 2]] in
  let s1 := state_of (undo_log_push (with_framebuffer A (st started1))) in
  let s2 := state_of (undo_log_push (with_framebuffer B s1)) in
  let s3 := state_of (history_step s2 (on PressQ)) in
  undo_log_push (with_framebuffer A (st started1)) = Ok s1 /\
  undo_log_push (with_framebuffer B s1) = Ok s2 /\
  history_step s2 (on PressQ) = Ok s3 /\
  framebuffer s3 = B /\
  framebuffer s3 <> A.
Proof.
  cbn zeta. repeat (split; [vm_refl|]). vm_compute. discriminate.
Qed.

(** With two slots the undo shows [A], but the distance is then
    2 mod 2 = 0 and the redo guard [dist > 1] keeps the canvas at [A]. *)
Lemma redo_at_capacity_two_is_ignored :
  let A := [[1; 1]] in
  let B := [[2; 2]] in
  let s1 := state_of (undo_log_push (with_framebuffer A (st started2))) in
  let s2 := state_of (undo_log_push (with_framebuffer B s1)) in
  let s3 := state_of (history_step s2 (on PressQ)) in
  undo_log_push (with_framebuffer A (st started2)) = Ok s1 /\
  undo_log_push (with_framebuffer B s1) = Ok s2 /\
  history_step s2 (on PressQ) = Ok s3 /\
  framebuffer s3 = A /\
  log_top_dist (log s3) = Ok 0 /\
  history_step s3 (on PressW) = Ok s3.
Proof. cbn zeta. repeat (split; [vm_refl|]). vm_refl. Qed.

Lemma undo_redo_round_trip_witness :
  let A := [[1; 1]] in
  let B := [[2; 2]] in
  exists s1 s2 s3,
    undo_log_push (with_framebuffer A (st started3)) = Ok s1 /\
    undo_log_push (with_framebuffer B s1) = Ok s2 /\
    history_step s2 (on PressQ) = Ok s3 /\
    framebuffer s3 = A /\
    exists s4, history_step s3 (on PressW) = Ok s4 /\ framebuffer s4 = B.
Proof.
  cbn zeta.
  destruct (undo_redo_round_trip (tiny 3) started3 [[1; 1]] [[2; 2]]
              (on PressQ) (on PressW))
    as (s1 & s2 & s3 & E1 & E2 & E3 & EA & Hredo).
  - vm_compute. split; reflexivity.
  - apply (run_reachable (tiny 3) []). vm_refl.
  - vm_refl.
  - vm_refl.
  - vm_compute. discriminate.
  - exists s1, s2, s3. repeat (split; [assumption|]).
    apply Hredo. vm_compute. discriminate.
Defined.



(** Pressing the left button and requesting redo in one iteration while
    browsing: the redo reads the slot the clearing has just unloaded. *)
Lemma press_and_redo_reads_unloaded_slot :
  frame (tiny 4) browsing4 press_and_redo = Crash ImageNotLoaded.
Proof. vm_refl. Qed.

Lemma ring_capacity_and_eviction_witness :
  exists s,
    push_canvases [[[1; 1]]; [[2; 2]]; [[3; 3]]]
      {| log := new_log 2; framebuffer := [[0; 0]]; unloaded := [] |} = Ok s /\
    used_size (log s) = 2 /\
    stored (log s) = [snapshot [[2; 2]]; snapshot [[3; 3]]] /\
    unloaded s = [LoadImageFromTexture [[1; 1]]].
Proof.
  destruct (ring_capacity_and_eviction (RL := raylib) 2 [[0; 0]]
              [[[1; 1]]; [[2; 2]]; [[3; 3]]])
    as (s & E & _ & Eu & _ & Est & Eun & _).
  - vm_compute. split; reflexivity.
  - exists s. repeat split; assumption.
Defined.

(** C9 fails on the code.  [strtoul] returns 0, not [ULONG_MAX], for a
    value without digits, so [--canvas-width abc] passes the check
    [== ULONG_MAX]: no diagnostic, the canvas width is 0 and the program
    starts and returns 0 when the window is closed. *)
Lemma non_numeric_value_is_accepted :
  strtoul "abc" 10 = 0 /\
  parse_args ["--canvas-width"; "abc"]%string default_options
    = Run (assign_ulong ref_canvas_width 0 default_options) /\
  exit_status (parse_args ["--canvas-width"; "abc"]%string default_options) = None /\
  main ["beak"; "--canvas-width"; "abc"]%string []
    = Returned 0 (Some (loop_of (startup (assign_ulong ref_canvas_width 0 default_options)))).
Proof. repeat (split; [vm_refl|]). vm_refl. Qed.

(** The values the check does reject are those [strtoul] maps to
    [ULONG_MAX]: out of range, or the negation of 1. *)
Lemma out_of_range_value_is_rejected :
  parse_args ["--undo-log-size"; "99999999999999999999"]%string default_options
    = Error "[error]: Invalid --undo-log-size option 99999999999999999999" /\
  parse_args ["--undo-log-size"; "-1"]%string default_options
    = Error "[error]: Invalid --undo-log-size option -1" /\
  parse_args ["--undo-log-size"; "12abc"]%string default_options
    = Run (assign_ulong ref_undo_log_size 12 default_options).
Proof. repeat (split; [vm_refl|]). vm_refl. Qed.

End Examples.

(** * Further properties of the undo log *)

Section ExactInvariant.

Context `{RL : Raylib}.

Lemma slot_new_log (n j : Z) :
  0 <= j < n -> slot (new_log n) j = Some None.
Proof.
  intros Hj. unfold slot. destruct (Z.ltb_spec j 0); [lia|].
  cbn [new_log images]. apply lookup_replicate. split; [reflexivity | lia].
Qed.

Lemma pushed_exact (n : Z) (s : State) :
  slots_ok (log s) -> size (log s) = n ->
  (forall k, used_size (log s) <= k < size (log s) ->
             slot (log s) (back (log s) k) = Some None) ->
  log_exact n (log (pushed s)).
Proof.
  intros S Es Hun. pose proof S as [C L].
  pose proof (pushed_cursors_ok s C) as C'.
  pose proof C as [Hs Hlen Ht Hsel Hu].
  split.
  - apply pushed_log_ok. exact S.
  - exact Es.
  - unfold dist. cbn [pushed log images size used_size top selected].
    intros H. revert H. window; lia.
  - intros k Hk. cbn [pushed log used_size size] in Hk.
    pose proof (back_range _ k C') as Hb.
    rewrite slot_pushed by (assumption || lia).
    assert (back (log (pushed s)) k = back (log s) (k - 1)) as ->.
    { unfold back in *. cbn [pushed log images size used_size top selected] in *.
      window; lia. }
    destruct (Z.eqb_spec (back (log s) (k - 1)) (top (log s))) as [E|NE].
    + exfalso. unfold back in E. revert E. window; lia.
    + apply Hun. lia.
Qed.

Lemma copied_exact (n : Z) (s : State) (i : Z) :
  log_exact n (log s) -> log_ok (log (copied i s)) ->
  (dist (log (copied i s)) = 0 -> used_size (log s) = size (log s)) ->
  log_exact n (log (copied i s)).
Proof.
  intros [Hok Es Htip Hun] Hok' Htip'. split.
  - exact Hok'.
  - exact Es.
  - exact Htip'.
  - exact Hun.
Qed.

Lemma copied_prev_exact (n : Z) (s : State) :
  log_exact n (log s) -> dist (log s) < used_size (log s) ->
  log_exact n (log (copied ((selected (log s) + size (log s) - 1)
                              mod size (log s)) s)).
Proof.
  intros E Hlt. pose proof E as [Hok Es Htip Hun].
  apply copied_exact; [exact E | apply copied_prev_log_ok; assumption |].
  pose proof Hok as [[C L] Hne Hd]. pose proof C as [Hs Hlen Ht Hsel Hu].
  unfold dist in *. cbn [copied log images size used_size top selected].
  intros H. revert H. window; lia.
Qed.

Lemma copied_next_exact (n : Z) (s : State) :
  log_exact n (log s) -> 2 <= dist (log s) ->
  log_exact n (log (copied ((selected (log s) + 1) mod size (log s)) s)).
Proof.
  intros E H2. pose proof E as [Hok Es Htip Hun].
  destruct (copied_next_log_ok s Hok H2) as [Hok' Ed].
  apply copied_exact; [exact E | exact Hok' |].
  rewrite Ed. lia.
Qed.

Lemma cleared_to_top_exact (n : Z) (s : State) :
  log_exact n (log s) -> 2 <= dist (log s) ->
  log_exact n (log (cleared_to_top (dist (log s)) s)).
Proof.
  intros E H2. pose proof E as [Hok Es Htip Hun].
  pose proof (cleared_to_top_cursors_ok s Hok H2) as C'.
  pose proof Hok as [[C L] Hne Hd]. pose proof C as [Hs Hlen Ht Hsel Hu].
  pose proof (dist_range _ C) as Hdr.
  split.
  - apply cleared_to_top_log_ok; assumption.
  - exact Es.
  - unfold dist in *. cbn [cleared_to_top log images size used_size top selected].
    intros H. revert H. window; lia.
  - intros k Hk. cbn [cleared_to_top log used_size size] in Hk.
    pose proof (back_range _ k C') as Hb.
    change (size (log (cleared_to_top (dist (log s)) s))) with (size (log s)) in Hb.
    rewrite slot_cleared_to_top by assumption.
    match goal with |- context [?a <? ?b] => destruct (Z.ltb_spec a b) as [Hin|Hout] end;
      [reflexivity|].
    assert (back (log (cleared_to_top (dist (log s)) s)) k
            = back (log s) (k + dist (log s) - 1)
            /\ k + dist (log s) - 1 < size (log s)) as [Eb Hlt].
    { unfold back, dist in *.
      cbn [cleared_to_top log images size used_size top selected] in *.
      window; lia. }
    rewrite Eb. apply Hun. lia.
Qed.

(** The part of [history_step] before the push keeps the exact invariant. *)
Lemma navigation_exact (n : Z) (s s2 s3 : State) (i : Input) :
  log_exact n (log s) ->
  (if 1 <? dist (log s) then
     s1 <- (if IsMouseButtonPressed_LEFT i
            then clear_selected_to_top s (dist (log s))
            else Ok s) ;;
     if IsKeyPressed_W i || IsMouseButtonPressed_EXTRA i
     then undo_log_copy s1 1
     else Ok s1
   else Ok s) = Ok s2 ->
  (if (dist (log s) <? used_size (log s2))
      && (IsKeyPressed_Q i || IsMouseButtonPressed_SIDE i)
   then undo_log_copy s2 (-1)
   else Ok s2) = Ok s3 ->
  log_exact n (log s3).
Proof.
  intros E H2 H3. pose proof E as [Hok Es Htip Hun].
  assert (log_exact n (log s2) /\
          (dist (log s) < used_size (log s2) -> dist (log s2) < used_size (log s2)))
    as [E2 Hd2].
  { destruct (Z.ltb_spec 1 (dist (log s))) as [Hd|Hd].
    - destruct (IsMouseButtonPressed_LEFT i).
      + rewrite clear_selected_to_top_ok in H2 by (assumption || lia).
        cbn [bind] in H2.
        destruct (IsKeyPressed_W i || IsMouseButtonPressed_EXTRA i).
        * rewrite redo_after_clearing_crashes in H2 by (assumption || lia).
          discriminate.
        * injection H2 as <-. split.
          -- apply cleared_to_top_exact; [assumption | lia].
          -- pose proof Hok as [[C L] Hne Hdu]. pose proof C as [Hs Hlen Ht Hsel Hu].
             unfold dist in *.
             cbn [cleared_to_top log images size used_size top selected].
             intros ?. window; lia.
      + cbn [bind] in H2.
        destruct (IsKeyPressed_W i || IsMouseButtonPressed_EXTRA i).
        * pose proof Hok as [[C L] Hne Hdu].
          apply undo_log_copy_next_inv in H2; [|exact C]. subst s2.
          destruct (copied_next_log_ok s Hok ltac:(lia)) as [Hok' Ed].
          split; [apply copied_next_exact; [assumption | lia]|].
          rewrite Ed. cbn [copied log used_size]. lia.
        * injection H2 as <-. split; [exact E | auto].
    - injection H2 as <-. split; [exact E | auto]. }
  destruct (Z.ltb_spec (dist (log s)) (used_size (log s2))) as [Hlt|Hge];
    cbn [andb] in H3.
  - destruct (IsKeyPressed_Q i || IsMouseButtonPressed_SIDE i).
    + pose proof E2 as [[[C L] Hne Hdu] _ _ _].
      apply undo_log_copy_prev_inv in H3; [|exact C]. subst s3.
      apply copied_prev_exact; auto.
    + injection H3 as <-. exact E2.
  - injection H3 as <-. exact E2.
Qed.

Lemma history_step_exact (n : Z) (s s' : State) (i : Input) :
  log_exact n (log s) -> history_step s i = Ok s' -> log_exact n (log s').
Proof.
  intros E H. unfold history_step in H.
  pose proof E as [[[C L] Hne Hd] Es Htip Hun].
  rewrite log_top_dist_ok in H by exact C. cbn [bind] in H.
  apply bind_ok in H as (s2 & H2 & H).
  apply bind_ok in H as (s3 & H3 & H).
  pose proof (navigation_exact n s s2 s3 i E H2 H3) as E3.
  destruct (IsMouseButtonReleased_LEFT i).
  - pose proof E3 as [[S3 _ _] Es3 _ Hun3].
    rewrite undo_log_push_ok in H by exact S3.
    injection H as <-. apply pushed_exact; assumption.
  - injection H as <-. exact E3.
Qed.

Lemma frame_exact (n : Z) (o : Options) (l l' : Loop) (i : Input) :
  log_exact n (log (st l)) -> frame o l i = Ok l' -> log_exact n (log (st l')).
Proof.
  intros E H. unfold frame in H. cbn zeta in H.
  apply bind_ok in H as (s1 & H1 & H).
  apply bind_ok in H as (s2 & H2 & H).
  injection H as <-. cbn [st log].
  apply (history_step_exact n s1 s2 i); [|exact H2].
  destruct (IsKeyPressed_C i).
  - pose proof E as [[S _ _] Es _ Hun].
    rewrite clear_framebuffer_ok in H1 by exact S.
    injection H1 as <-. apply pushed_exact; assumption.
  - injection H1 as <-. exact E.
Qed.

Lemma reachable_exact (o : Options) (l : Loop) :
  0 < undo_log_size o < 2 ^ 63 -> reachable o l ->
  log_exact (undo_log_size o) (log (st l)).
Proof.
  intros Hn R. induction R as [l H | l i l' R IH H].
  - destruct (startup_eq o Hn) as (l0 & E & Est).
    rewrite E in H. injection H as <-. rewrite Est.
    apply pushed_exact.
    + apply new_log_slots_ok. exact Hn.
    + reflexivity.
    + intros k Hk. cbn [log new_log used_size size] in Hk.
      apply slot_new_log.
      apply (back_range (new_log (undo_log_size o)) k).
      apply new_log_slots_ok. exact Hn.
  - apply (frame_exact _ o l l' i); assumption.
Qed.

End ExactInvariant.

Section LogProperties.

Context `{RL : Raylib}.

Lemma back_age (l : UndoLog) (j : Z) :
  cursors_ok l -> 0 <= j < size l -> back l (age l j) = j /\ 0 <= age l j < size l.
Proof.
  intros [Hs Hlen Ht Hsel Hu] Hj. unfold back, age. split.
  - window; lia.
  - apply Z.mod_pos_bound. lia.
Qed.

(** X1.  The shape of the log in every reachable state: its capacity is the
    configured one and never changes, the array has that many slots, both
    cursors are inside it, and between one and [size] entries are in use. *)
Theorem log_shape_is_kept (o : Options) (l : Loop) :
  0 < undo_log_size o < 2 ^ 63 ->
  reachable o l ->
  size (log (st l)) = undo_log_size o /\
  Z.of_nat (length (images (log (st l)))) = undo_log_size o /\
  1 <= used_size (log (st l)) <= undo_log_size o /\
  0 <= top (log (st l)) < undo_log_size o /\
  0 <= selected (log (st l)) < undo_log_size o.
Proof.
  intros Hn R.
  pose proof (reachable_exact o l Hn R) as [[[C L] Hne Hd] Es Htip Hun].
  destruct C as [Hs Hlen Ht Hsel Hu]. rewrite <- Es. repeat split; lia.
Qed.

(** X2.  In every reachable state the selected slot holds a loaded image:
    the entry [selected] points at has been pushed and not unloaded. *)
Theorem selected_entry_is_loaded (o : Options) (l : Loop) :
  0 < undo_log_size o < 2 ^ 63 ->
  reachable o l ->
  loaded (log (st l)) (selected (log (st l))).
Proof.
  intros Hn R.
  pose proof (reachable_exact o l Hn R) as [[[C L] Hne Hd] Es Htip Hun].
  pose proof C as [Hs Hlen Ht Hsel Hu].
  pose proof (dist_range _ C) as Hdr.
  destruct (back_age _ _ C Hsel) as [Eb Ha].
  rewrite <- Eb. apply L. split; [lia|].
  destruct (Z.eq_dec (dist (log (st l))) 0) as [E0|NE].
  - rewrite (Htip E0). lia.
  - unfold age, dist in *. revert Hd NE. window; lia.
Qed.

(** X3.  In every reachable state the array holds exactly the entries in
    use: a slot written fewer than [used_size] pushes before [top] holds a
    loaded image, and every other slot of the array holds no image. *)
Theorem slots_hold_exactly_the_used_entries (o : Options) (l : Loop) (j : Z) :
  0 < undo_log_size o < 2 ^ 63 ->
  reachable o l ->
  0 <= j < size (log (st l)) ->
  if age (log (st l)) j <? used_size (log (st l))
  then loaded (log (st l)) j
  else slot (log (st l)) j = Some None.
Proof.
  intros Hn R Hj.
  pose proof (reachable_exact o l Hn R) as [[[C L] Hne Hd] Es Htip Hun].
  destruct (back_age _ _ C Hj) as [Eb Ha].
  destruct (Z.ltb_spec (age (log (st l)) j) (used_size (log (st l)))).
  - rewrite <- Eb. apply L. lia.
  - rewrite <- Eb. apply Hun. lia.
Qed.

(** X4.  Undo at the wrap: when [selected] equals [top] in a reachable state
    (the log is then full and its oldest entry is selected), an undo request
    is not refused; it selects the entry that was pushed last and leaves the
    stored images as they are. *)
Theorem undo_past_the_oldest_entry_wraps (o : Options) (l : Loop) (i : Input) :
  0 < undo_log_size o < 2 ^ 63 ->
  reachable o l ->
  selected (log (st l)) = top (log (st l)) ->
  only_undo i = true ->
  used_size (log (st l)) = size (log (st l)) /\
  exists l',
    frame o l i = Ok l' /\
    selected (log (st l')) = back (log (st l)) 0 /\
    age (log (st l)) (selected (log (st l))) = size (log (st l)) - 1 /\
    age (log (st l)) (selected (log (st l'))) = 0 /\
    images (log (st l')) = images (log (st l)) /\
    used_size (log (st l')) = used_size (log (st l)) /\
    top (log (st l')) = top (log (st l)).
Proof.
  intros Hn R Esel Hi.
  pose proof (reachable_exact o l Hn R) as [Hok Es Htip Hun].
  pose proof Hok as [[C L] Hne Hd]. pose proof C as [Hs Hlen Ht Hsel Hu].
  assert (dist (log (st l)) = 0) as Ed.
  { unfold dist. rewrite Esel.
    replace (top (log (st l)) + size (log (st l)) - top (log (st l)))
      with (1 * size (log (st l))) by lia.
    apply Z.mod_mul. lia. }
  split; [apply Htip; exact Ed|].
  destruct (frame_quiet o l i
              (copied ((selected (log (st l)) + size (log (st l)) - 1)
                         mod size (log (st l))) (st l)))
    as (l' & E & Est).
  - unfold only_undo in Hi. requests Hi. assumption.
  - unfold only_undo in Hi. requests Hi. assumption.
  - unfold only_undo in Hi. requests Hi. assumption.
  - apply history_step_undo; [assumption.. | lia].
  - exists l'. split; [exact E|]. rewrite Est.
    cbn [copied log images size used_size top selected].
    unfold back, age. rewrite Esel. repeat split; window; lia.
Qed.

(** X5.  The left button going down together with a redo request, while an
    older entry is selected ([dist > 1]): the entries after [selected] are
    unloaded first and the redo then reads the first of them.  The
    iteration faults on an image that is no longer loaded. *)
Theorem press_with_redo_reads_unloaded_image (o : Options) (l : Loop) (i : Input) :
  0 < undo_log_size o < 2 ^ 63 ->
  reachable o l ->
  1 < dist (log (st l)) ->
  press_with_redo i = true ->
  frame o l i = Crash ImageNotLoaded.
Proof.
  intros Hn R Hd Hi.
  pose proof (reachable_log_ok o l Hn R) as Hok.
  pose proof Hok as [[C L] Hne Hdu].
  unfold press_with_redo in Hi. requests Hi.
  unfold frame. cbn zeta. rewrite Hflag. cbn [bind].
  unfold history_step. rewrite log_top_dist_ok by exact C. cbn [bind].
  assert ((1 <? dist (log (st l))) = true) as -> by (apply Z.ltb_lt; lia).
  rewrite Hi, Hflag0.
  rewrite clear_selected_to_top_ok by (assumption || lia). cbn [bind].
  rewrite redo_after_clearing_crashes by (assumption || lia). reflexivity.
Qed.

(** X6.  A stroke in progress is not recorded.  In a reachable state, an
    iteration that requests nothing of the log (no Clear, undo, redo, left
    press or release) completes, leaves the log and the released images
    unchanged, and paints the stroke when a paint button is down: in the
    brush colour when the left button is down, whether or not the right one
    is too, and in the background colour otherwise. *)
Theorem painting_leaves_the_log (o : Options) (l : Loop) (i : Input) :
  0 < undo_log_size o < 2 ^ 63 ->
  reachable o l ->
  no_log_request i = true ->
  exists l', frame o l i = Ok l' /\
    log (st l') = log (st l) /\
    unloaded (st l') = unloaded (st l) /\
    framebuffer (st l') =
      if IsMouseButtonDown_LEFT i || IsMouseButtonDown_RIGHT i
      then draw_stroke o (GetScreenWidth i) (GetScreenHeight i)
             (target_x l') (target_y l') (mouse_pos l) (GetMousePosition i)
             (brush_radius l')
             (if IsMouseButtonDown_LEFT i then brush_color l'
              else GetColor (background_hexcolor o))
             (framebuffer (st l))
      else framebuffer (st l).
Proof.
  intros Hn R Hi. pose proof (reachable_log_ok o l Hn R) as [[C L] Hne Hd].
  unfold no_log_request in Hi. requests Hi.
  assert (history_step (st l) i = Ok (st l)) as Hh.
  { apply history_step_idle; try assumption; use_requests;
      try reflexivity; apply andb_false_r. }
  unfold frame. cbn zeta. rewrite Hi. cbn [bind]. rewrite Hh. cbn [bind].
  eexists. split; [reflexivity|].
  cbn [st log unloaded framebuffer target_x target_y brush_radius brush_color].
  repeat split.
Qed.

End LogProperties.

Section Saving.

Context `{RL : Raylib}.

(** X7.  Save.  In a reachable state, an iteration in which S is pressed
    and, Clear apart, nothing is requested of the log completes, exports
    one image to [save_path] and then unloads that image: it is the
    read-back of the canvas as it is after this iteration's Clear, if any,
    and before this iteration's stroke.  Without Clear the log is unchanged
    and none of its images is released: the copy is the only image
    unloaded. *)
Theorem save_exports_the_canvas (o : Options) (l : Loop) (i : Input) :
  0 < undo_log_size o < 2 ^ 63 ->
  reachable o l ->
  save_request i = true ->
  let image :=
    LoadImageFromTexture
      (if IsKeyPressed_C i
       then ClearBackground (GetColor (background_hexcolor o)) (framebuffer (st l))
       else framebuffer (st l)) in
  exists l', frame o l i = Ok l' /\
    exported l' = (image, save_path o) :: exported l /\
    unloaded_copies l' = image :: unloaded_copies l /\
    (IsKeyPressed_C i = false ->
     log (st l') = log (st l) /\ unloaded (st l') = unloaded (st l)).
Proof.
  intros Hn R Hi. pose proof (reachable_log_ok o l Hn R) as [S Hne Hd].
  pose proof S as [C L].
  unfold save_request in Hi. requests Hi.
  cbn zeta. unfold frame. cbn zeta. rewrite Hi.
  destruct (IsKeyPressed_C i).
  - rewrite clear_framebuffer_ok by exact S. cbn [bind].
    rewrite history_step_idle; try assumption; use_requests;
      try reflexivity; try apply andb_false_r.
    + cbn [bind]. eexists. split; [reflexivity|].
      cbn [exported unloaded_copies]. repeat split; discriminate.
    + apply pushed_cursors_ok. exact C.
  - cbn [bind].
    rewrite history_step_idle; try assumption; use_requests;
      try reflexivity; try apply andb_false_r.
    cbn [bind]. eexists. split; [reflexivity|].
    cbn [exported unloaded_copies st log unloaded].
    repeat split.
Qed.

(** X8.  The brush radius is never zero or negative.  Provided the floats
    10 and 1 are not [<= 0], in every reachable state the test
    [brush_radius <= 0.0f] is false, whatever the wheel reported. *)
Theorem brush_radius_stays_positive (o : Options) (l : Loop) :
  fleb (float_of_Z 10) (float_of_Z 0) = false ->
  fleb (float_of_Z 1) (float_of_Z 0) = false ->
  reachable o l ->
  fleb (brush_radius l) (float_of_Z 0) = false.
Proof.
  intros H10 H1 R. induction R as [l H | l i l' R IH H].
  - unfold startup in H. cbn zeta in H.
    apply bind_ok in H as (s & _ & H). injection H as <-. exact H10.
  - unfold frame in H. cbn zeta in H.
    apply bind_ok in H as (s1 & _ & H). apply bind_ok in H as (s2 & _ & H).
    injection H as <-. cbn [brush_radius].
    destruct (negb (feqb (GetMouseWheelMove i) (float_of_Z 0))); [|exact IH].
    destruct (fleb (fadd (brush_radius l) (fmul (float_of_Z 5) (GetMouseWheelMove i)))
                (float_of_Z 0)) eqn:E; [exact H1 | exact E].
Qed.

Lemma last_cons_default {A : Type} (a d : A) (xs : list A) :
  List.last (a :: xs) d = List.last xs a.
Proof.
  revert a d. induction xs as [|b xs IH]; intros a d; [reflexivity|].
  change (List.last (a :: b :: xs) d) with (List.last (b :: xs) d).
  rewrite (IH b d), (IH b a). reflexivity.
Qed.

Lemma last_colour_key (keys : list Z) (d : Z) :
  colour_key d = true ->
  colour_key (List.last (List.filter colour_key keys) d) = true.
Proof.
  revert d. induction keys as [|k keys IH]; intros d Hd; [exact Hd|].
  cbn [List.filter]. destruct (colour_key k) eqn:Ek; [|apply IH; exact Hd].
  rewrite last_cons_default. apply IH. exact Ek.
Qed.

Lemma frames_brush_color (o : Options) (inputs : list Input) :
  forall (l l' : Loop) (key : Z),
  brush_color l = get_brush_color (key - KEY_ONE) ->
  frames o l inputs = Ok l' ->
  brush_color l' =
  get_brush_color
    (List.last (List.filter colour_key (map GetKeyPressed inputs)) key - KEY_ONE).
Proof.
  induction inputs as [|i rest IH]; intros l l' key Hl H; cbn [frames] in H.
  - injection H as <-. exact Hl.
  - apply bind_ok in H as (l1 & H1 & H).
    cbn [map List.filter].
    assert (brush_color l1 =
            if colour_key (GetKeyPressed i)
            then get_brush_color (GetKeyPressed i - KEY_ONE)
            else brush_color l) as E1.
    { unfold frame in H1. cbn zeta in H1.
      apply bind_ok in H1 as (s1 & _ & H1). apply bind_ok in H1 as (s2 & _ & H1).
      injection H1 as <-. reflexivity. }
    destruct (colour_key (GetKeyPressed i)).
    + rewrite last_cons_default. apply (IH l1); assumption.
    + apply (IH l1); [congruence | assumption].
Qed.

(** X19.  The brush colour is the one of the last colour key.  After
    start-up and any list of inputs, the brush colour is
    [get_brush_color (key - KEY_ONE)] for the last key between 1 and 5
    among the keys pressed, and [get_brush_color 0] when there was none:
    no other key and nothing else changes it.  The index is one of the
    [NUM_COLORS] palette indices. *)
Theorem brush_colour_is_from_the_palette (o : Options) (inputs : list Input)
    (l : Loop) :
  run o inputs = Ok l ->
  let key := List.last (List.filter colour_key (map GetKeyPressed inputs)) KEY_ONE in
  0 <= key - KEY_ONE < NUM_COLORS /\
  brush_color l = get_brush_color (key - KEY_ONE).
Proof.
  intros H. cbn zeta. split.
  - pose proof (last_colour_key (map GetKeyPressed inputs) KEY_ONE eq_refl) as Hk.
    revert Hk.
    generalize (List.last (List.filter colour_key (map GetKeyPressed inputs)) KEY_ONE).
    intros key Hk. unfold colour_key in Hk. apply andb_true_iff in Hk as [H1 H5].
    apply Z.leb_le in H1. apply Z.leb_le in H5.
    unfold KEY_ONE, KEY_FIVE, NUM_COLORS in *. lia.
  - unfold run in H. apply bind_ok in H as (l0 & H0 & H).
    apply (frames_brush_color o inputs l0); [|exact H].
    unfold startup in H0. cbn zeta in H0.
    apply bind_ok in H0 as (s & _ & H0). injection H0 as <-. reflexivity.
Qed.

End Saving.

Section Navigating.

Context `{RL : Raylib}.

Lemma frames_app (o : Options) (a b : list Input) :
  forall l, frames o l (a ++ b) = (l1 <- frames o l a ;; frames o l1 b).
Proof.
  induction a as [|i a IH]; intros l; cbn [app frames bind]; [reflexivity|].
  destruct (frame o l i) as [l0|f]; cbn [bind]; [apply IH | reflexivity].
Qed.

(** [k] redos in a row, while newer entries exist. *)
Lemma redo_steps (o : Options) (redo : Input) (k : nat) :
  forall l,
  log_ok (log (st l)) -> only_redo redo = true ->
  Z.of_nat k + 1 <= dist (log (st l)) ->
  exists l',
    frames o l (replicate k redo) = Ok l' /\
    log_ok (log (st l')) /\
    dist (log (st l')) = dist (log (st l)) - Z.of_nat k /\
    used_size (log (st l')) = used_size (log (st l)) /\
    size (log (st l')) = size (log (st l)) /\
    top (log (st l')) = top (log (st l)) /\
    images (log (st l')) = images (log (st l)) /\
    unloaded (st l') = unloaded (st l).
Proof.
  induction k as [|k IH]; intros l Hok Hr Hk.
  - exists l. cbn [replicate frames]. split; [reflexivity|]. split; [exact Hok|].
    split; [lia|]. repeat split.
  - cbn [replicate frames].
    destruct (frame_quiet o l redo
                (copied ((selected (log (st l)) + 1) mod size (log (st l))) (st l)))
      as (l1 & E1 & Est1).
    + unfold only_redo in Hr. requests Hr. assumption.
    + unfold only_redo in Hr. requests Hr. assumption.
    + unfold only_redo in Hr. requests Hr. assumption.
    + apply history_step_redo; [assumption.. | lia].
    + rewrite E1. cbn [bind].
      destruct (copied_next_log_ok (st l) Hok ltac:(lia)) as [Hok1 Ed1].
      rewrite <- Est1 in Hok1, Ed1.
      destruct (IH l1 Hok1 Hr ltac:(lia))
        as (l' & E & Hok' & Ed & Eu & Es & Et & Ei & Eun).
      exists l'. split; [exact E|]. split; [exact Hok'|].
      rewrite Ed, Eu, Es, Et, Ei, Eun, Ed1, Est1.
      cbn [copied log images size used_size top unloaded].
      repeat split. lia.
Qed.

(** Two logs that differ at most in [selected] and have the same distance
    are the same log. *)
Lemma log_eq_of_dist (l1 l2 : UndoLog) :
  cursors_ok l1 -> cursors_ok l2 ->
  images l1 = images l2 -> size l1 = size l2 -> used_size l1 = used_size l2 ->
  top l1 = top l2 -> dist l1 = dist l2 -> l1 = l2.
Proof.
  intros [Hs1 _ Ht1 Hsel1 _] [Hs2 _ Ht2 Hsel2 _] Ei Es Eu Et Ed.
  assert (selected l1 = selected l2) as Esel.
  { unfold dist in Ed. rewrite Es, Et in Ed.
    apply mod_inj_window in Ed; lia. }
  destruct l1, l2. cbn in *. subst. reflexivity.
Qed.

(** X9.  Undo and redo are inverse on the log.  In a reachable state with an
    entry selected at distance [d >= 1], [k] undos followed by [k] redos
    all succeed and give back the same log (the same images, cursors and
    [used_size]) and release nothing, as long as [k] older entries exist
    ([d + k <= used_size]) and the distance stays below the capacity
    ([d + k < size]). *)
Theorem undos_then_redos_restore_the_log (o : Options) (l : Loop) (k : nat)
    (undo redo : Input) :
  0 < undo_log_size o < 2 ^ 63 ->
  reachable o l ->
  only_undo undo = true -> only_redo redo = true ->
  1 <= dist (log (st l)) ->
  dist (log (st l)) + Z.of_nat k <= used_size (log (st l)) ->
  dist (log (st l)) + Z.of_nat k < size (log (st l)) ->
  exists l1 l2,
    frames o l (replicate k undo) = Ok l1 /\
    dist (log (st l1)) = dist (log (st l)) + Z.of_nat k /\
    frames o l (replicate k undo ++ replicate k redo) = Ok l2 /\
    log (st l2) = log (st l) /\
    unloaded (st l2) = unloaded (st l).
Proof.
  intros Hn R Hu Hr Hd Hused Hsize.
  pose proof (reachable_log_ok o l Hn R) as Hok.
  destruct (undo_steps o undo k l Hok Hu Hused Hsize)
    as (l1 & E1 & Hok1 & Ed1 & Eu1 & Es1 & Et1 & Ei1 & Eun1).
  destruct (redo_steps o redo k l1 Hok1 Hr ltac:(lia))
    as (l2 & E2 & Hok2 & Ed2 & Eu2 & Es2 & Et2 & Ei2 & Eun2).
  exists l1, l2. split; [exact E1|]. split; [exact Ed1|].
  split; [rewrite frames_app, E1; exact E2|].
  split; [|congruence].
  apply log_eq_of_dist; try congruence.
  - destruct Hok2 as [[C2 _] _ _]. exact C2.
  - destruct Hok as [[C _] _ _]. exact C.
  - lia.
Qed.

End Navigating.

Section Stepping.

Context `{RL : Raylib}.

(** X10.  What one undo or redo does.  In a reachable state, an iteration
    whose only request is undo, with an older entry to go to
    ([dist < used_size]), moves [selected] one slot back (around the ring);
    one whose only request is redo, with [dist > 1], moves it one slot
    forward.  Either way the slot reached holds a loaded image, the canvas
    becomes that image drawn back (whatever was on it), and the images,
    [top], [used_size] and the released images stay as they are. *)
Theorem navigation_step (o : Options) (l : Loop) (i : Input) (target : Z) :
  0 < undo_log_size o < 2 ^ 63 ->
  reachable o l ->
  (only_undo i = true /\ dist (log (st l)) < used_size (log (st l)) /\
   target = (selected (log (st l)) + size (log (st l)) - 1) mod size (log (st l))) \/
  (only_redo i = true /\ 1 < dist (log (st l)) /\
   target = (selected (log (st l)) + 1) mod size (log (st l))) ->
  exists l' img,
    frame o l i = Ok l' /\
    selected (log (st l')) = target /\
    slot (log (st l)) target = Some (Some img) /\
    framebuffer (st l') =
      DrawTextureRec_flipped (LoadTextureFromImage img) (framebuffer (st l)) /\
    images (log (st l')) = images (log (st l)) /\
    top (log (st l')) = top (log (st l)) /\
    used_size (log (st l')) = used_size (log (st l)) /\
    unloaded (st l') = unloaded (st l).
Proof.
  intros Hn R Hreq. pose proof (reachable_log_ok o l Hn R) as Hok.
  pose proof Hok as [[C L] Hne Hd].
  assert (history_step (st l) i = Ok (copied target (st l)) /\
          loaded (log (st l)) target /\
          IsKeyPressed_C i = false /\ IsMouseButtonDown_LEFT i = false /\
          IsMouseButtonDown_RIGHT i = false) as (Hh & [img Himg] & Hc & Hl & Hr).
  { destruct Hreq as [(Hi & Hg & ->)|(Hi & Hg & ->)].
    - split; [apply history_step_undo; assumption|].
      pose proof (undo_log_copy_prev_ok (st l) Hok Hg) as E.
      rewrite (undo_log_copy_eq _ (-1) _ C (or_intror (conj eq_refl eq_refl))) in E.
      unfold only_undo in Hi. requests Hi.
      split; [|repeat split; assumption].
      unfold loaded. destruct (slot (log (st l)) _) as [[img|]|]; [eauto|discriminate..].
    - split; [apply history_step_redo; [assumption.. | lia]|].
      pose proof (undo_log_copy_next_ok (st l) Hok ltac:(lia)) as E.
      rewrite (undo_log_copy_eq _ 1 _ C (or_introl (conj eq_refl eq_refl))) in E.
      unfold only_redo in Hi. requests Hi.
      split; [|repeat split; assumption].
      unfold loaded. destruct (slot (log (st l)) _) as [[img|]|]; [eauto|discriminate..]. }
  destruct (frame_quiet o l i _ Hc Hl Hr Hh) as (l' & E & Est).
  exists l', img. split; [exact E|]. rewrite Est.
  cbn [copied log images size used_size top selected framebuffer unloaded].
  rewrite (content_loaded _ _ _ Himg). repeat split. exact Himg.
Qed.

Lemma unloaded_from_length (n : nat) :
  forall (i : Z) (s : State),
  cursors_ok (log s) -> 0 <= i < size (log s) -> Z.of_nat n <= size (log s) ->
  (forall m, 0 <= m < Z.of_nat n -> loaded (log s) ((i + m) mod size (log s))) ->
  length (unloaded (unloaded_from n i s)) = (n + length (unloaded s))%nat.
Proof.
  induction n as [|n IH]; intros i s C Hi Hn Hload; cbn [unloaded_from];
    [reflexivity|].
  pose proof C as [Hs Hlen Ht Hsel Hu].
  pose proof (unloaded_at_cursors_ok i s C) as C1.
  assert (size (log (unloaded_at i s)) = size (log s)) as Es by reflexivity.
  destruct (Hload 0 ltac:(lia)) as [img Himg].
  replace (i + 0) with i in Himg by lia. rewrite Z.mod_small in Himg by lia.
  rewrite IH.
  - cbn [unloaded_at unloaded]. rewrite (content_loaded _ _ _ Himg).
    cbn [app length]. lia.
  - exact C1.
  - rewrite Es. apply Z.mod_pos_bound. lia.
  - rewrite Es. lia.
  - intros m Hm. rewrite Es. unfold loaded.
    pose proof (Z.mod_pos_bound ((i + 1) mod size (log s) + m) (size (log s)) ltac:(lia)).
    rewrite slot_unloaded_at by (assumption || lia).
    destruct (Z.eqb_spec (((i + 1) mod size (log s) + m) mod size (log s)) i)
      as [E|NE'].
    { exfalso. revert E. window; lia. }
    destruct (Hload (m + 1) ltac:(lia)) as [img' Himg'].
    exists img'. rewrite <- Himg'. f_equal. window; lia.
Qed.

(** X11.  Drawing after undo discards the entries after the selected one
    and nothing else.  In a reachable state with [dist > 1], an iteration
    in which the left button goes down (and nothing else is requested of
    the log) unloads exactly the [dist - 1] entries newer than the selected
    one and empties their slots, leaves every other slot as it is (the
    selected entry and all older ones keep their images), keeps [selected],
    sets [top] to the slot after it and lowers [used_size] by [dist - 1]. *)
Theorem press_discards_only_newer_entries (o : Options) (l : Loop) (i : Input) :
  0 < undo_log_size o < 2 ^ 63 ->
  reachable o l ->
  1 < dist (log (st l)) ->
  only_press i = true ->
  exists l',
    frame o l i = Ok l' /\
    selected (log (st l')) = selected (log (st l)) /\
    top (log (st l')) = (selected (log (st l)) + 1) mod size (log (st l)) /\
    used_size (log (st l')) = used_size (log (st l)) - (dist (log (st l)) - 1) /\
    dist (log (st l')) = 1 /\
    (forall j, 0 <= j < size (log (st l)) ->
       slot (log (st l')) j =
       if age (log (st l)) j <? dist (log (st l)) - 1
       then Some None else slot (log (st l)) j) /\
    length (unloaded (st l')) =
      (Z.to_nat (dist (log (st l)) - 1) + length (unloaded (st l)))%nat.
Proof.
  intros Hn R Hd Hi. pose proof (reachable_log_ok o l Hn R) as Hok.
  pose proof Hok as [[C L] Hne Hdu]. pose proof C as [Hs Hlen Ht Hsel Hu].
  pose proof (dist_range _ C) as Hdr.
  destruct (frame_history o l i (cleared_to_top (dist (log (st l))) (st l)))
    as (l' & E & El & Eun).
  { unfold only_press in Hi. requests Hi. assumption. }
  { apply history_step_press; [assumption.. | lia]. }
  exists l'. split; [exact E|]. rewrite El, Eun.
  split; [reflexivity|]. split; [reflexivity|]. split; [reflexivity|].
  split.
  { unfold dist in *. cbn [cleared_to_top log images size used_size top selected].
    window; lia. }
  split.
  - intros j Hj. rewrite slot_cleared_to_top by (assumption || lia).
    unfold age, dist in *.
    repeat match goal with
           | |- context [?a <? ?b] => destruct (Z.ltb_spec a b)
           end; try reflexivity; exfalso;
      repeat match goal with
             | H : context [?x mod ?n] |- _ => revert H
             end; window; lia.
  - cbn [cleared_to_top unloaded].
    apply unloaded_from_length.
    + exact C.
    + apply Z.mod_pos_bound. lia.
    + lia.
    + intros m Hm. rewrite Z2Nat.id in Hm by lia.
      specialize (L (dist (log (st l)) - 2 - m) ltac:(lia)).
      assert (back (log (st l)) (dist (log (st l)) - 2 - m)
              = ((selected (log (st l)) + 1) mod size (log (st l)) + m)
                  mod size (log (st l))) as <-.
      { unfold back, dist in *. window; lia. }
      exact L.
Qed.

End Stepping.

(** * Further properties of the camera target *)

Section Camera.

Context `{RL : Raylib}.

Lemma clamp_target_idempotent (canvas_dim w t : Z) :
  clamp_target canvas_dim w (clamp_target canvas_dim w t) = clamp_target canvas_dim w t.
Proof.
  unfold clamp_target, CLAMP, MIN, MAX.
  repeat match goal with
         | |- context [?a >? ?b] => destruct (Z.gtb_spec a b)
         | |- context [?a <? ?b] => destruct (Z.ltb_spec a b)
         end; lia.
Qed.

Lemma clamp_target_inside (canvas_dim w t : Z) :
  w ÷ 2 <= t <= int_of_ulong canvas_dim - w ÷ 2 -> 0 <= w ÷ 2 ->
  clamp_target canvas_dim w t = t.
Proof.
  unfold clamp_target, CLAMP, MIN, MAX.
  repeat match goal with
         | |- context [?a >? ?b] => destruct (Z.gtb_spec a b)
         | |- context [?a <? ?b] => destruct (Z.ltb_spec a b)
         end; lia.
Qed.

(** X12.  The window stays on the canvas.  When half the window fits on
    each side ([0 <= w/2 <= canvas_width - w/2], and the same for the
    height), the target computed by an iteration lies in
    [[w/2, canvas_width - w/2]] x [[h/2, canvas_height - h/2]] whenever the
    iteration pans, reports a resize, or the target was already there. *)
Theorem camera_stays_on_the_canvas (o : Options) (l : Loop) (i : Input) :
  let w := GetScreenWidth i in
  let h := GetScreenHeight i in
  let cw := int_of_ulong (canvas_width o) in
  let ch := int_of_ulong (canvas_height o) in
  0 <= w ÷ 2 <= cw - w ÷ 2 ->
  0 <= h ÷ 2 <= ch - h ÷ 2 ->
  IsMouseButtonDown_MIDDLE i = true \/ IsWindowResized i = true \/
  (w ÷ 2 <= target_x l <= cw - w ÷ 2 /\ h ÷ 2 <= target_y l <= ch - h ÷ 2) ->
  w ÷ 2 <= fst (camera_target o l i) <= cw - w ÷ 2 /\
  h ÷ 2 <= snd (camera_target o l i) <= ch - h ÷ 2.
Proof.
  cbn zeta. intros Hw Hh Hcase.
  pose proof (fun t => clamp_target_bounds (canvas_width o) (GetScreenWidth i) t Hw) as Bx.
  pose proof (fun t => clamp_target_bounds (canvas_height o) (GetScreenHeight i) t Hh) as By.
  unfold camera_target.
  destruct (IsMouseButtonDown_MIDDLE i), (IsWindowResized i); cbn [fst snd];
    try (split; auto).
  destruct Hcase as [H|[H|H]]; try discriminate. exact (proj1 H).
  destruct Hcase as [H|[H|H]]; try discriminate. exact (proj2 H).
Qed.

(** X13.  The clamp applied twice is the clamp applied once, and it leaves a
    target inside the range alone.  So the resize clamp changes nothing in
    an iteration that also pans, and a resize that still leaves room
    ([w/2 <= target <= canvas - w/2] on both axes) does not move the
    target. *)
Theorem resize_clamp_is_idempotent (o : Options) (l : Loop) (i : Input) :
  let w := GetScreenWidth i in
  let h := GetScreenHeight i in
  (IsMouseButtonDown_MIDDLE i = true ->
   camera_target o l i =
   (clamp_target (canvas_width o) w
      (pan_axis (target_x l) (fst (GetMousePosition i)) (fst (mouse_pos l))),
    clamp_target (canvas_height o) h
      (pan_axis (target_y l) (snd (GetMousePosition i)) (snd (mouse_pos l))))) /\
  (IsMouseButtonDown_MIDDLE i = false ->
   0 <= w ÷ 2 -> 0 <= h ÷ 2 ->
   w ÷ 2 <= target_x l <= int_of_ulong (canvas_width o) - w ÷ 2 ->
   h ÷ 2 <= target_y l <= int_of_ulong (canvas_height o) - h ÷ 2 ->
   camera_target o l i = (target_x l, target_y l)).
Proof.
  cbn zeta. split.
  - intros Hm. unfold camera_target. rewrite Hm.
    destruct (IsWindowResized i); cbn [fst snd]; [|reflexivity].
    rewrite !clamp_target_idempotent. reflexivity.
  - intros Hm Hw Hh Hx Hy. unfold camera_target. rewrite Hm.
    destruct (IsWindowResized i); cbn [fst snd]; [|reflexivity].
    rewrite !clamp_target_inside by assumption. reflexivity.
Qed.

(** X14.  A window too large for the canvas.  When the [int] subtraction
    [(int)canvas_width - w/2] does not overflow and [w/2] exceeds
    [max(0, canvas_width - w/2)], every pan and every resize puts [target_x]
    at [max(0, canvas_width - w/2)], wherever the mouse is; the same holds
    for [target_y] with the heights. *)
Theorem oversized_window_pins_the_target (o : Options) (l : Loop) (i : Input) :
  let w := GetScreenWidth i in
  let h := GetScreenHeight i in
  IsMouseButtonDown_MIDDLE i = true \/ IsWindowResized i = true ->
  (INT_MIN <= int_of_ulong (canvas_width o) - w ÷ 2 <= INT_MAX ->
   MAX 0 (int_of_ulong (canvas_width o) - w ÷ 2) < w ÷ 2 ->
   fst (camera_target o l i) = MAX 0 (int_of_ulong (canvas_width o) - w ÷ 2)) /\
  (INT_MIN <= int_of_ulong (canvas_height o) - h ÷ 2 <= INT_MAX ->
   MAX 0 (int_of_ulong (canvas_height o) - h ÷ 2) < h ÷ 2 ->
   snd (camera_target o l i) = MAX 0 (int_of_ulong (canvas_height o) - h ÷ 2)).
Proof.
  cbn zeta. intros Hcase. unfold camera_target. split; intros _ Hbig;
    destruct (IsMouseButtonDown_MIDDLE i), (IsWindowResized i); cbn [fst snd];
    try (apply clamp_target_oversized; exact Hbig);
    destruct Hcase; discriminate.
Qed.

End Camera.

(** * Further properties of the option parser *)

Section OptionParser.

Lemma set_option_no_match (table : list CmdLineOption) (option value : string)
    (o : Options) :
  (forall e, In e table -> name e <> option) ->
  set_option table option value o = Run o.
Proof.
  induction table as [|e rest IH]; intros Hne; cbn [set_option]; [reflexivity|].
  assert (String.eqb option (name e) = false) as ->.
  { apply String.eqb_neq. intros E. apply (Hne e); [left; reflexivity | congruence]. }
  cbn [negb]. apply IH. intros e' He'. apply Hne. right. exact He'.
Qed.

(** X15.  Unknown options are skipped without a diagnostic.  An argument
    that is none of the seven option names and does not start with
    [--help] is dropped together with the argument after it, and parsing
    goes on with the variables unchanged. *)
Theorem unknown_option_is_skipped (option value : string) (rest : list string)
    (o : Options) :
  (forall e, In e options -> name e <> option) ->
  String.prefix "--help"%string option = false ->
  parse_args (option :: value :: rest) o = parse_args rest o.
Proof.
  intros Hne Hhelp. cbn [parse_args]. rewrite Hhelp.
  rewrite set_option_no_match by exact Hne. reflexivity.
Qed.

Lemma set_option_known (e : CmdLineOption) (value : string) (o : Options) :
  In e options ->
  String.prefix "--help"%string (name e) = false /\
  set_option options (name e) value o =
  match type e with
  | CMDLINE_OPTION_STR => Run (assign_str (pointer e) value o)
  | CMDLINE_OPTION_ULONG =>
      if strtoul value 10 =? ULONG_MAX
      then Error ("[error]: Invalid " ++ name e ++ " option " ++ value)%string
      else Run (assign_ulong (pointer e) (strtoul value 10) o)
  | CMDLINE_OPTION_HEX =>
      if strtoul value 16 =? ULONG_MAX
      then Error ("[error]: Invalid " ++ name e ++ " option " ++ value)%string
      else Run (assign_ulong (pointer e) (strtoul value 16) o)
  end.
Proof.
  intros He. unfold options in He. cbn [In] in He.
  repeat (destruct He as [<-|He]); try contradiction;
    (split; [reflexivity|]);
    unfold options; cbn [set_option name type pointer];
    repeat match goal with
           | |- context [String.eqb ?a ?b] =>
               let v := eval vm_compute in (String.eqb a b) in
               change (String.eqb a b) with v; cbn [negb]
           end;
    cbn zeta;
    try match goal with
        | |- context [?x =? ULONG_MAX] => destruct (x =? ULONG_MAX)
        end; reflexivity.
Qed.

(** X16.  What a known option does.  For each entry of the option table,
    the pair [name value] is handled by that entry alone: a string option
    stores the value; a numeric option converts it with [strtoul] in base
    10 (base 16 for a hex option), ends the program with the
    [Invalid ... option] diagnostic exactly when the conversion yields
    [ULONG_MAX], and otherwise stores the number in the entry's variable;
    parsing then goes on with the remaining arguments. *)
Theorem known_option_sets_its_variable (e : CmdLineOption) (value : string)
    (rest : list string) (o : Options) :
  In e options ->
  parse_args (name e :: value :: rest) o =
  match type e with
  | CMDLINE_OPTION_STR => parse_args rest (assign_str (pointer e) value o)
  | CMDLINE_OPTION_ULONG =>
      if strtoul value 10 =? ULONG_MAX
      then Error ("[error]: Invalid " ++ name e ++ " option " ++ value)%string
      else parse_args rest (assign_ulong (pointer e) (strtoul value 10) o)
  | CMDLINE_OPTION_HEX =>
      if strtoul value 16 =? ULONG_MAX
      then Error ("[error]: Invalid " ++ name e ++ " option " ++ value)%string
      else parse_args rest (assign_ulong (pointer e) (strtoul value 16) o)
  end.
Proof.
  intros He. destruct (set_option_known e value o He) as [Hhelp Hset].
  cbn [parse_args]. rewrite Hhelp, Hset.
  destruct (type e); [reflexivity| |];
    match goal with
    | |- context [?x =? ULONG_MAX] => destruct (x =? ULONG_MAX)
    end; reflexivity.
Qed.

(** X17.  The last occurrence wins.  When an option is given twice in a
    row and its first value is accepted, the result is the one of giving
    only the second. *)
Theorem repeated_option_last_wins (e : CmdLineOption) (v1 v2 : string)
    (rest : list string) (o : Options) :
  In e options ->
  exit_status (parse_args [name e; v1] o) = None ->
  parse_args (name e :: v1 :: name e :: v2 :: rest) o =
  parse_args (name e :: v2 :: rest) o.
Proof.
  intros He Hok.
  destruct (set_option_known e v1 o He) as [Hhelp Hset1].
  pose proof (fun o' => proj2 (set_option_known e v2 o' He)) as Hset2.
  cbn [parse_args] in *. rewrite Hhelp in *. rewrite Hset1 in *.
  rewrite Hset2.
  unfold options in He. cbn [In] in He.
  repeat (destruct He as [<-|He]); try contradiction;
    cbn [type pointer name] in *;
    try (destruct (strtoul v1 _ =? ULONG_MAX); [discriminate|]);
    cbn [parse_args]; try rewrite Hhelp; rewrite Hset2;
    cbn [type pointer name];
    reflexivity.
Qed.

(** X18.  The loop over the arguments finishes, and the program goes on to
    open the window, only if the arguments after the program name come in
    pairs: with an odd number of them the program ends with the help text
    or with a diagnostic. *)
Theorem options_come_in_pairs (args : list string) (o o' : Options) :
  parse_args args o = Run o' ->
  exists m : nat, length args = (2 * m)%nat.
Proof.
  assert (forall (n : nat) (args : list string) (o o' : Options),
             (length args <= n)%nat -> parse_args args o = Run o' ->
             exists m : nat, length args = (2 * m)%nat) as H.
  { clear. induction n as [|n IH]; intros args o o' Hlen Hrun.
    - destruct args; [exists 0%nat; reflexivity | cbn in Hlen; lia].
    - destruct args as [|a [|b rest]].
      + exists 0%nat. reflexivity.
      + cbn [parse_args] in Hrun.
        destruct (String.prefix "--help"%string a); discriminate.
      + cbn [parse_args] in Hrun.
        destruct (String.prefix "--help"%string a); [discriminate|].
        destruct (set_option options a b o) as [| |o1]; try discriminate.
        destruct (IH rest o1 o' ltac:(cbn [length] in Hlen; lia) Hrun) as [m Hm].
        exists (S m). cbn [length]. lia. }
  intros Hrun. apply (H (length args) args o o'); [lia | exact Hrun].
Qed.

End OptionParser.

(** * The further properties on concrete inputs *)

Module ExtraExamples.
Import IntRaster.

(** Closed comparisons between integers, by evaluation. *)
Ltac vm_arith :=
  vm_compute; repeat split; first [reflexivity | discriminate].

Lemma log_shape_is_kept_witness :
  size (log (st browsing4)) = 4 /\
  Z.of_nat (length (images (log (st browsing4)))) = 4 /\
  1 <= used_size (log (st browsing4)) <= 4 /\
  0 <= top (log (st browsing4)) < 4 /\
  0 <= selected (log (st browsing4)) < 4.
Proof.
  apply (log_shape_is_kept (tiny 4) browsing4).
  - vm_arith.
  - apply (run_reachable (tiny 4) browse4). vm_refl.
Defined.

Lemma selected_entry_is_loaded_witness :
  loaded (log (st browsing4)) (selected (log (st browsing4))).
Proof.
  apply (selected_entry_is_loaded (tiny 4) browsing4).
  - vm_arith.
  - apply (run_reachable (tiny 4) browse4). vm_refl.
Defined.

Lemma slots_hold_exactly_the_used_entries_witness :
  (if age (log (st browsing4)) 1 <? used_size (log (st browsing4))
   then loaded (log (st browsing4)) 1
   else slot (log (st browsing4)) 1 = Some None) /\
  (if age (log (st browsing4)) 3 <? used_size (log (st browsing4))
   then loaded (log (st browsing4)) 3
   else slot (log (st browsing4)) 3 = Some None).
Proof.
  split.
  - apply (slots_hold_exactly_the_used_entries (tiny 4) browsing4 1).
    + vm_arith.
    + apply (run_reachable (tiny 4) browse4). vm_refl.
    + vm_arith.
  - apply (slots_hold_exactly_the_used_entries (tiny 4) browsing4 3).
    + vm_arith.
    + apply (run_reachable (tiny 4) browse4). vm_refl.
    + vm_arith.
Defined.

Lemma undo_past_the_oldest_entry_wraps_witness :
  used_size (log (st oldest3)) = size (log (st oldest3)) /\
  exists l',
    frame (tiny 3) oldest3 (on PressQ) = Ok l' /\
    selected (log (st l')) = back (log (st oldest3)) 0 /\
    age (log (st oldest3)) (selected (log (st oldest3))) = size (log (st oldest3)) - 1 /\
    age (log (st oldest3)) (selected (log (st l'))) = 0 /\
    images (log (st l')) = images (log (st oldest3)) /\
    used_size (log (st l')) = used_size (log (st oldest3)) /\
    top (log (st l')) = top (log (st oldest3)).
Proof.
  apply (undo_past_the_oldest_entry_wraps (tiny 3) oldest3 (on PressQ)).
  - vm_arith.
  - apply (run_reachable (tiny 3) browse3). vm_refl.
  - vm_refl.
  - vm_refl.
Defined.

Lemma press_with_redo_reads_unloaded_image_witness :
  frame (tiny 4) browsing4 press_and_redo = Crash ImageNotLoaded.
Proof.
  apply (press_with_redo_reads_unloaded_image (tiny 4) browsing4 press_and_redo).
  - vm_arith.
  - apply (run_reachable (tiny 4) browse4). vm_refl.
  - vm_arith.
  - vm_refl.
Defined.

Lemma painting_leaves_the_log_witness :
  exists l', frame (tiny 3) full3 hold_left = Ok l' /\
    log (st l') = log (st full3) /\
    unloaded (st l') = unloaded (st full3).
Proof.
  destruct (painting_leaves_the_log (tiny 3) full3 hold_left)
    as (l' & E & El & Eu & _).
  - vm_arith.
  - apply (run_reachable (tiny 3) two_strokes). vm_refl.
  - vm_refl.
  - exists l'. repeat split; assumption.
Defined.

Lemma save_exports_the_canvas_witness :
  exists l', frame (tiny 3) full3 press_s = Ok l' /\
    exported l' =
      (LoadImageFromTexture (framebuffer (st full3)), save_path (tiny 3))
        :: exported full3 /\
    unloaded_copies l' =
      LoadImageFromTexture (framebuffer (st full3)) :: unloaded_copies full3 /\
    unloaded (st l') = unloaded (st full3).
Proof.
  destruct (save_exports_the_canvas (tiny 3) full3 press_s)
    as (l' & E & Ex & Ec & El).
  - vm_arith.
  - apply (run_reachable (tiny 3) two_strokes). vm_refl.
  - vm_refl.
  - exists l'. repeat split; [exact E | exact Ex | exact Ec |].
    apply El. reflexivity.
Defined.

Lemma brush_radius_stays_positive_witness :
  fleb (brush_radius full3) (float_of_Z 0) = false.
Proof.
  apply (brush_radius_stays_positive (tiny 3) full3).
  - vm_refl.
  - vm_refl.
  - apply (run_reachable (tiny 3) two_strokes). vm_refl.
Defined.

Lemma brush_colour_is_from_the_palette_witness :
  brush_color full3 = get_brush_color 1.
Proof.
  apply (brush_colour_is_from_the_palette (tiny 3) two_strokes full3).
  vm_refl.
Defined.

Lemma undos_then_redos_restore_the_log_witness :
  exists l1 l2,
    frames (tiny 3) full3 (replicate 1 (on PressQ)) = Ok l1 /\
    dist (log (st l1)) = dist (log (st full3)) + Z.of_nat 1 /\
    frames (tiny 3) full3 (replicate 1 (on PressQ) ++ replicate 1 (on PressW)) = Ok l2 /\
    log (st l2) = log (st full3) /\
    unloaded (st l2) = unloaded (st full3).
Proof.
  apply (undos_then_redos_restore_the_log (tiny 3) full3 1 (on PressQ) (on PressW)).
  - vm_arith.
  - apply (run_reachable (tiny 3) two_strokes). vm_refl.
  - vm_refl.
  - vm_refl.
  - vm_arith.
  - vm_arith.
  - vm_arith.
Defined.

Lemma navigation_step_witness :
  exists l' img,
    frame (tiny 3) full3 (on PressQ) = Ok l' /\
    selected (log (st l')) = 1 /\
    slot (log (st full3)) 1 = Some (Some img) /\
    framebuffer (st l') =
      DrawTextureRec_flipped (LoadTextureFromImage img) (framebuffer (st full3)) /\
    images (log (st l')) = images (log (st full3)) /\
    top (log (st l')) = top (log (st full3)) /\
    used_size (log (st l')) = used_size (log (st full3)) /\
    unloaded (st l') = unloaded (st full3).
Proof.
  apply (navigation_step (tiny 3) full3 (on PressQ) 1).
  - vm_arith.
  - apply (run_reachable (tiny 3) two_strokes). vm_refl.
  - left. split; [vm_refl|]. split; [vm_arith | vm_refl].
Defined.

Lemma press_discards_only_newer_entries_witness :
  exists l',
    frame (tiny 4) browsing4 (on PressLeft) = Ok l' /\
    selected (log (st l')) = selected (log (st browsing4)) /\
    top (log (st l')) = (selected (log (st browsing4)) + 1) mod size (log (st browsing4)) /\
    used_size (log (st l')) =
      used_size (log (st browsing4)) - (dist (log (st browsing4)) - 1) /\
    dist (log (st l')) = 1.
Proof.
  destruct (press_discards_only_newer_entries (tiny 4) browsing4 (on PressLeft))
    as (l' & E & Es & Et & Eu & Ed & _).
  - vm_arith.
  - apply (run_reachable (tiny 4) browse4). vm_refl.
  - vm_arith.
  - vm_refl.
  - exists l'. repeat split; assumption.
Defined.

Lemma camera_stays_on_the_canvas_witness :
  400 <= fst (camera_target default_options started3
                (at_size HoldMiddle 800 600 5000 5000)) <= 2560 - 400 /\
  300 <= snd (camera_target default_options started3
                (at_size HoldMiddle 800 600 5000 5000)) <= 1440 - 300.
Proof.
  apply (camera_stays_on_the_canvas (RL := raylib) default_options started3
           (at_size HoldMiddle 800 600 5000 5000)).
  - vm_arith.
  - vm_arith.
  - left. reflexivity.
Defined.

Lemma resize_clamp_is_idempotent_witness :
  camera_target default_options started3 (at_size Resize 800 600 0 0) =
  (target_x started3, target_y started3).
Proof.
  apply (resize_clamp_is_idempotent (RL := raylib) default_options started3
           (at_size Resize 800 600 0 0)).
  - reflexivity.
  - vm_arith.
  - vm_arith.
  - vm_arith.
  - vm_arith.
Defined.

Lemma oversized_window_pins_the_target_witness :
  fst (camera_target default_options started3 (at_size Resize 6000 600 0 0)) =
  MAX 0 (int_of_ulong (canvas_width default_options) - 6000 ÷ 2).
Proof.
  apply (oversized_window_pins_the_target (RL := raylib) default_options started3
           (at_size Resize 6000 600 0 0)).
  - right. reflexivity.
  - vm_arith.
  - vm_arith.
Defined.

Lemma unknown_option_is_skipped_witness :
  parse_args ["--brush"; "9"; "--undo-log-size"; "3"]%string default_options =
  parse_args ["--undo-log-size"; "3"]%string default_options.
Proof.
  apply (unknown_option_is_skipped "--brush" "9").
  - intros e He. unfold options in He. cbn [In] in He.
    repeat (destruct He as [<-|He]); try contradiction; cbn [name]; discriminate.
  - reflexivity.
Defined.

Lemma known_option_sets_its_variable_witness :
  parse_args (name undo_log_size_entry :: ["3"; "--save-path"; "a.png"]%string)
    default_options =
  match type undo_log_size_entry with
  | CMDLINE_OPTION_STR =>
      parse_args ["--save-path"; "a.png"]%string
        (assign_str (pointer undo_log_size_entry) "3" default_options)
  | CMDLINE_OPTION_ULONG =>
      if strtoul "3" 10 =? ULONG_MAX
      then Error ("[error]: Invalid " ++ name undo_log_size_entry ++ " option " ++ "3")%string
      else parse_args ["--save-path"; "a.png"]%string
             (assign_ulong (pointer undo_log_size_entry) (strtoul "3" 10) default_options)
  | CMDLINE_OPTION_HEX =>
      if strtoul "3" 16 =? ULONG_MAX
      then Error ("[error]: Invalid " ++ name undo_log_size_entry ++ " option " ++ "3")%string
      else parse_args ["--save-path"; "a.png"]%string
             (assign_ulong (pointer undo_log_size_entry) (strtoul "3" 16) default_options)
  end.
Proof.
  apply (known_option_sets_its_variable undo_log_size_entry "3").
  unfold options, undo_log_size_entry. cbn [In]. do 4 right. left. reflexivity.
Defined.

Lemma repeated_option_last_wins_witness :
  parse_args (name undo_log_size_entry :: "3"%string
              :: name undo_log_size_entry :: ["5"]%string) default_options =
  parse_args (name undo_log_size_entry :: ["5"]%string) default_options.
Proof.
  apply (repeated_option_last_wins undo_log_size_entry "3" "5" []).
  - unfold options, undo_log_size_entry. cbn [In]. do 4 right. left. reflexivity.
  - vm_refl.
Defined.

Lemma options_come_in_pairs_witness :
  exists m : nat,
    length ["--undo-log-size"; "3"; "--save-path"; "a.png"]%string = (2 * m)%nat.
Proof.
  apply (options_come_in_pairs
           ["--undo-log-size"; "3"; "--save-path"; "a.png"]%string
           default_options
           (assign_str ref_save_path "a.png"
              (assign_ulong ref_undo_log_size 3 default_options))).
  vm_refl.
Defined.

End ExtraExamples.
